(** * Connection pool of the Redis client (v2/pool.go)

    A shallow embedding of [connPool] (the bounded pool) and of
    [singleConnPool] (the adapter that pins one connection), with the
    properties of the pool's specification stated and settled against it.

    Modelling conventions.
    - Go's [int] and [time.Duration] are 64-bit: they are integers of [Z]
      with the wrap-around (or, for [time.Time.Sub], the saturation) written
      where the code computes with them.
    - A [*conn] is an address in a heap of [conn] objects ([None] is [nil]);
      [Put] writes [UsedAt] through the pointer, so two idle entries that
      hold the same pointer share the stamp.
    - [container/list] is modelled at the level of its interface: a list is
      the sequence of its linked elements, an element is a handle with an
      identity, and [Next] on a handle that was removed answers [nil].
    - The dial and close hooks and the transport's own [Close] act on an
      external state [E] that the pool cannot see.  Every call of a hook and
      every [cond.Signal] is recorded in a trace.
    - The mutex makes the body of each method one atomic step.  A [Get] that
      would call [cond.Wait] is the outcome [Blocked]: the call does not
      complete in that state. *)

From Stdlib Require Import ZArith String Lia.
From stdpp Require Import base list.

#[local] Open Scope Z_scope.

(** ** Go's machine integers *)

Module GoInt.

Definition min_int : Z := - 2 ^ 63.
Definition max_int : Z := 2 ^ 63 - 1.

(** Two's-complement wrap-around of a 64-bit [int]. *)
Definition wrap (z : Z) : Z := (z + 2 ^ 63) mod 2 ^ 64 - 2 ^ 63.

(** [x++] and [x--]. *)
Definition incr (z : Z) : Z := wrap (z + 1).
Definition decr (z : Z) : Z := wrap (z - 1).

(** [time.Time.Sub] answers the extreme [Duration] instead of
    overflowing. *)
Definition saturate (z : Z) : Z := Z.max min_int (Z.min max_int z).

Definition in_range (z : Z) : Prop := min_int <= z <= max_int.

End GoInt.

Definition Time : Type := Z.
Definition Duration : Type := Z.
Definition error : Type := string.

(** [a.Sub(b)] on two instants, in nanoseconds. *)
Definition Sub (a b : Time) : Duration := GoInt.saturate (a - b).

(** ** container/list *)

Module GoList.
Section Elements.
Context {A : Type}.

(** An [*Element]: the identity of the cell and the value it carries. *)
Record Element : Type := { id : nat; Value : A }.

(** The elements linked in the list, front first, and the identity the
    next [PushFront] hands out. *)
Record List : Type := { elems : list Element; next_id : nat }.

Definition New : List := {| elems := []; next_id := 0 |}.

(** [l.Init()] empties the list.  (The pool keeps no element across a
    call of [Init].) *)
Definition Init (l : List) : List := {| elems := []; next_id := next_id l |}.

Definition Len (l : List) : Z := Z.of_nat (length (elems l)).

Definition Front (l : List) : option Element := head (elems l).

Fixpoint successor (i : nat) (es : list Element) : option Element :=
  match es with
  | [] => None
  | x :: rest => if Nat.eqb (id x) i then head rest else successor i rest
  end.

(** [e.Next()]: the element after [e], or [nil] at the back of the list
    and when [e] is not (or no longer) linked: [Remove] clears the [next],
    [prev] and [list] fields of the element it unlinks, and [Next] answers
    [nil] for an element that belongs to no list. *)
Definition Next (l : List) (e : Element) : option Element :=
  successor (id e) (elems l).

Fixpoint unlink (i : nat) (es : list Element) : list Element :=
  match es with
  | [] => []
  | x :: rest => if Nat.eqb (id x) i then rest else x :: unlink i rest
  end.

(** [l.Remove(e)]: unlinks [e] if it is an element of [l]; the other
    elements keep their order. *)
Definition Remove (l : List) (e : Element) : List :=
  {| elems := unlink (id e) (elems l); next_id := next_id l |}.

(** [l.PushFront(v)]: a new element in front of the others. *)
Definition PushFront (l : List) (v : A) : List :=
  {| elems := {| id := next_id l; Value := v |} :: elems l;
     next_id := S (next_id l) |}.

Definition values (l : List) : list A := Value <$> elems l.

(** Elements are distinct cells, all handed out by this list. *)
Definition wf (l : List) : Prop :=
  NoDup (id <$> elems l) /\ Forall (fun e => (id e < next_id l)%nat) (elems l).

End Elements.
Arguments Element : clear implicits.
Arguments List : clear implicits.
End GoList.

(** ** Transports, connections, the world outside the pool *)

(** A [net.Conn]: the interface value with the one method the pool calls.
  [fd] names the transport in traces. *)
Record netConn {E : Type} : Type :=
{ fd : nat; netClose : E -> option error * E }.
Arguments netConn : clear implicits.

(** Addresses of [conn] objects; a [*conn] is an [option ptr], [None]
    being [nil]. *)
Definition ptr : Type := nat.

Module Conn.
Section Ext.
Context {E : Type}.

(** [type conn struct].  [Rd], the buffered reader over [Cn], is left
    out: the pool never touches it. *)
Record conn : Type :=
  { Cn : netConn E;
    UsedAt : Time;
    readTimeout : Duration;
    writeTimeout : Duration }.

Definition set_UsedAt (t : Time) (c : conn) : conn :=
  {| Cn := Cn c; UsedAt := t;
     readTimeout := readTimeout c; writeTimeout := writeTimeout c |}.

End Ext.
Arguments conn : clear implicits.
End Conn.

(** What the pool does to its surroundings. *)
Inductive event : Type :=
| EvDial (r : nat + error)              (* dial(): the transport or the error *)
| EvCloseHook (c : nat) (r : option error)  (* p.close(cn.Cn) *)
| EvConnClose (c : nat) (r : option error)  (* cn.Cn.Close() *)
| EvSignal.                             (* p.cond.Signal() *)

Record world {E : Type} : Type :=
{ now : Time;                 (* what time.Now() answers *)
  ext : E;                    (* the state the hooks act on *)
  heap : list (Conn.conn E);  (* the conn objects, by address *)
  trace : list event }.
Arguments world : clear implicits.

(** ** Outcomes and the state monad of the methods *)

Inductive outcome (A : Type) : Type :=
| Done (a : A)
| Panic (msg : string)
| Blocked          (* parked in cond.Wait() *)
| OutOfFuel.       (* a loop of the model was cut short *)
Arguments Done {A} a.
Arguments Panic {A} msg.
Arguments Blocked {A}.
Arguments OutOfFuel {A}.

Definition M (S A : Type) : Type := S -> outcome (A * S).

Definition ret {S A} (a : A) : M S A := fun s => Done (a, s).

Definition bind {S A B} (m : M S A) (k : A -> M S B) : M S B :=
fun s =>
  match m s with
  | Done (a, s') => k a s'
  | Panic msg => Panic msg
  | Blocked => Blocked
  | OutOfFuel => OutOfFuel
  end.

Definition panic {S A} (msg : string) : M S A := fun _ => Panic msg.
Definition wait {S A} : M S A := fun _ => Blocked.
Definition out_of_fuel {S A} : M S A := fun _ => OutOfFuel.

Declare Scope monad_scope.
Delimit Scope monad_scope with monad.
Notation "x <- m ;; k" := (bind m (fun x => k))
(at level 100, m at level 99, right associativity) : monad_scope.
Notation "m ;;; k" := (bind m (fun _ => k))
(at level 100, right associativity) : monad_scope.
#[local] Open Scope monad_scope.

Section WorldOps.
Context {E P : Type}.
#[local] Abbreviation St := (P * world E)%type.

(** The receiver [p] of a method. *)
Definition self : M St P := fun s => Done (fst s, s).
Definition update (f : P -> P) : M St unit := fun s => Done (tt, (f (fst s), snd s)).

Definition the_world : M St (world E) := fun s => Done (snd s, s).
Definition set_world (w : world E) : M St unit := fun s => Done (tt, (fst s, w)).

Definition emit (ev : event) : M St unit :=
  w <- the_world ;;
  set_world {| now := now w; ext := ext w; heap := heap w; trace := trace w ++ [ev] |}.

(** Runs an external function on the state it acts on. *)
Definition call {A} (f : E -> A * E) : M St A :=
  w <- the_world ;;
  let (a, x) := f (ext w) in
  set_world {| now := now w; ext := x; heap := heap w; trace := trace w |} ;;;
  ret a.

(** [*cn]: a nil pointer panics. *)
Definition deref (cn : option ptr) : M St (Conn.conn E) :=
  w <- the_world ;;
  match cn with
  | None => panic "invalid memory address or nil pointer dereference"
  | Some a =>
      match heap w !! a with
      | Some c => ret c
      | None => panic "invalid memory address or nil pointer dereference"
      end
  end.

(** [*cn = c] *)
Definition store (cn : option ptr) (c : Conn.conn E) : M St unit :=
  w <- the_world ;;
  match cn with
  | None => panic "invalid memory address or nil pointer dereference"
  | Some a =>
      set_world {| now := now w; ext := ext w; heap := <[a := c]> (heap w); trace := trace w |}
  end.

(** [&conn{...}]: a new object at a new address. *)
Definition alloc (c : Conn.conn E) : M St (option ptr) :=
  w <- the_world ;;
  set_world {| now := now w; ext := ext w; heap := heap w ++ [c]; trace := trace w |} ;;;
  ret (Some (length (heap w))).

(** [newConn(netcn, readTimeout, writeTimeout)]; [UsedAt] keeps the zero
    [time.Time]. *)
Definition newConn (netcn : netConn E) (rt wt : Duration) : M St (option ptr) :=
  alloc {| Conn.Cn := netcn; Conn.UsedAt := 0;
           Conn.readTimeout := rt; Conn.writeTimeout := wt |}.

(** [time.Since(t)]. *)
Definition Since (t : Time) : M St Duration :=
  w <- the_world ;; ret (Sub (now w) t).

End WorldOps.

(** ** connPool: the bounded pool *)

Module ConnPool.
Section Ext.
Context {E : Type}.

(** [type connPool struct].  [cond] has no field of its own: waiting on it
    is the outcome [Blocked], signalling it the event [EvSignal]. *)
Record connPool : Type :=
  { dial : E -> (netConn E + error) * E;
    close : option (netConn E -> E -> option error * E);
    conns : GoList.List (option ptr);
    readTimeout : Duration;
    writeTimeout : Duration;
    size : Z;
    maxSize : Z;
    idleTimeout : Duration }.

#[local] Abbreviation St := (connPool * world E)%type.

Definition set_conns (l : GoList.List (option ptr)) (p : connPool) : connPool :=
  {| dial := dial p; close := close p; conns := l;
     readTimeout := readTimeout p; writeTimeout := writeTimeout p;
     size := size p; maxSize := maxSize p; idleTimeout := idleTimeout p |}.

Definition set_size (n : Z) (p : connPool) : connPool :=
  {| dial := dial p; close := close p; conns := conns p;
     readTimeout := readTimeout p; writeTimeout := writeTimeout p;
     size := n; maxSize := maxSize p; idleTimeout := idleTimeout p |}.

Definition newConnPool
    (dial : E -> (netConn E + error) * E)
    (close : option (netConn E -> E -> option error * E))
    (maxSize : Z) (readTimeout writeTimeout idleTimeout : Duration) : connPool :=
  {| dial := dial; close := close; conns := GoList.New;
     readTimeout := readTimeout; writeTimeout := writeTimeout;
     size := 0; maxSize := maxSize; idleTimeout := idleTimeout |}.

(** [p.dial()], recorded. *)
Definition call_dial : M St (netConn E + error) :=
  p <- self ;;
  r <- call (dial p) ;;
  emit (EvDial (match r with inl rw => inl (fd rw) | inr err => inr err end)) ;;;
  ret r.

(** [func (p *connPool) closeConn(cn *conn) error] *)
Definition closeConn (cn : option ptr) : M St (option error) :=
  p <- self ;;
  c <- deref cn ;;
  match close p with
  | Some hook =>
      r <- call (hook (Conn.Cn c)) ;;
      emit (EvCloseHook (fd (Conn.Cn c)) r) ;;;
      ret r
  | None =>
      r <- call (netClose (Conn.Cn c)) ;;
      emit (EvConnClose (fd (Conn.Cn c)) r) ;;;
      ret r
  end.

(** The sweep of [Get]:
    [for e := p.conns.Front(); e != nil; e = e.Next()], dropping [e] when
    [time.Since(cn.UsedAt) > p.idleTimeout].  [e.Next()] is asked of the list
    as the body left it. *)
Fixpoint sweep_from (fuel : nat) (e : option (GoList.Element (option ptr))) : M St unit :=
  match e with
  | None => ret tt
  | Some e =>
      match fuel with
      | O => out_of_fuel
      | S fuel =>
          cn <- deref (GoList.Value e) ;;
          idle <- Since (Conn.UsedAt cn) ;;
          p <- self ;;
          (if idleTimeout p <? idle
           then update (set_conns (GoList.Remove (conns p) e))
           else ret tt) ;;;
          p <- self ;;
          sweep_from fuel (GoList.Next (conns p) e)
      end
  end.

Definition sweep : M St unit :=
  p <- self ;;
  sweep_from (length (GoList.elems (conns p))) (GoList.Front (conns p)).

(** [func (p *connPool) Get()], answering the connection, whether it is new, and the error *)
Definition Get : M St (option ptr * bool * option error) :=
  p <- self ;;
  if (GoList.Len (conns p) =? 0) && (maxSize p <=? size p)
  then wait
  else
    (if 0 <? idleTimeout p then sweep else ret tt) ;;;
    p <- self ;;
    if GoList.Len (conns p) =? 0
    then
      r <- call_dial ;;
      match r with
      | inr err => ret (None, false, Some err)
      | inl rw =>
          update (set_size (GoInt.incr (size p))) ;;;
          cn <- newConn rw (readTimeout p) (writeTimeout p) ;;
          ret (cn, true, None)
      end
    else
      match GoList.Front (conns p) with
      | None => panic "invalid memory address or nil pointer dereference"
      | Some elem =>
          update (set_conns (GoList.Remove (conns p) elem)) ;;;
          ret (GoList.Value elem, false, None)
      end.

(** [func (p *connPool) Put(cn *conn) error] *)
Definition Put (cn : option ptr) : M St (option error) :=
  w <- the_world ;;
  c <- deref cn ;;
  store cn (Conn.set_UsedAt (now w) c) ;;;
  p <- self ;;
  update (set_conns (GoList.PushFront (conns p) cn)) ;;;
  emit EvSignal ;;;
  ret None.

(** [func (p *connPool) Remove(cn *conn) error] *)
Definition Remove (cn : option ptr) : M St (option error) :=
  err <- match cn with
         | Some _ => closeConn cn
         | None => ret None
         end ;;
  p <- self ;;
  update (set_size (GoInt.decr (size p))) ;;;
  emit EvSignal ;;;
  ret err.

(** [func (p *connPool) Len() int] *)
Definition Len (p : connPool) : Z := GoList.Len (conns p).

(** [func (p *connPool) Size() int] *)
Definition Size (p : connPool) : Z := size p.

(** The loop of [Close]: closes from [e] on, and stops at the first
    failure. *)
Fixpoint close_from (fuel : nat) (e : option (GoList.Element (option ptr))) : M St (option error) :=
  match e with
  | None => ret None
  | Some e =>
      match fuel with
      | O => out_of_fuel
      | S fuel =>
          err <- closeConn (GoList.Value e) ;;
          match err with
          | Some _ => ret err
          | None =>
              p <- self ;;
              close_from fuel (GoList.Next (conns p) e)
          end
      end
  end.

(** [func (p *connPool) Close() error] *)
Definition Close : M St (option error) :=
  p <- self ;;
  err <- close_from (length (GoList.elems (conns p))) (GoList.Front (conns p)) ;;
  match err with
  | Some _ => ret err
  | None =>
      p <- self ;;
      update (set_conns (GoList.Init (conns p))) ;;;
      update (set_size 0) ;;;
      ret None
  end.

End Ext.
Arguments connPool : clear implicits.
End ConnPool.

(** ** The pool interface *)

Module Pool.

(** [type pool interface]: a pool is a state [P] with the five methods. *)
Class pool (E P : Type) : Type :=
  { Get : M (P * world E) (option ptr * bool * option error);
    Put : option ptr -> M (P * world E) (option error);
    Remove : option ptr -> M (P * world E) (option error);
    Len : P -> Z;
    Close : M (P * world E) (option error) }.

End Pool.

#[export] Instance connPool_pool {E : Type} : Pool.pool E (ConnPool.connPool E) :=
  {| Pool.Get := ConnPool.Get;
     Pool.Put := ConnPool.Put;
     Pool.Remove := ConnPool.Remove;
     Pool.Len := ConnPool.Len;
     Pool.Close := ConnPool.Close |}.

(** ** singleConnPool: one pinned connection over a pool *)

Module SingleConnPool.
Section Over.
Context {E P : Type} `{!Pool.pool E P}.

(** [type singleConnPool struct].  [pool] is the state of the pool behind
    the interface value; the lock [l] is the atomicity of the methods. *)
Record singleConnPool : Type :=
  { pool : P;
    cn : option ptr;
    reusable : bool }.

#[local] Abbreviation St := (singleConnPool * world E)%type.

Definition set_pool (q : P) (p : singleConnPool) : singleConnPool :=
  {| pool := q; cn := cn p; reusable := reusable p |}.

Definition set_cn (c : option ptr) (p : singleConnPool) : singleConnPool :=
  {| pool := pool p; cn := c; reusable := reusable p |}.

Definition newSingleConnPool (pool : P) (cn : option ptr) (reusable : bool) : singleConnPool :=
  {| pool := pool; cn := cn; reusable := reusable |}.

(** A call [p.pool.m(...)] of a method of the underlying pool. *)
Definition in_pool {A} (m : M (P * world E) A) : M St A :=
  fun s =>
    match m (pool (fst s), snd s) with
    | Done (a, (q, w)) => Done (a, (set_pool q (fst s), w))
    | Panic msg => Panic msg
    | Blocked => Blocked
    | OutOfFuel => OutOfFuel
    end.

(** [func (p *singleConnPool) Get()] *)
Definition Get : M St (option ptr * bool * option error) :=
  p <- self ;;
  match cn p with
  | Some _ => ret (cn p, false, None)
  | None =>
      r <- in_pool Pool.Get ;;
      let '(c, isNew, err) := r in
      match err with
      | Some _ => ret (None, false, err)
      | None =>
          update (set_cn c) ;;;
          ret (c, isNew, None)
      end
  end.

(** [func (p *singleConnPool) Put(cn *conn) error] *)
Definition Put (c : option ptr) : M St (option error) :=
  p <- self ;;
  if decide (cn p = c) then ret None else panic "p.cn != cn".

(** [func (p *singleConnPool) Remove(cn *conn) error] *)
Definition Remove (c : option ptr) : M St (option error) :=
  p <- self ;;
  if decide (cn p = c)
  then update (set_cn None) ;;; ret None
  else panic "p.cn != cn".

(** [func (p *singleConnPool) Len() int] *)
Definition Len (p : singleConnPool) : Z :=
  match cn p with
  | None => 0
  | Some _ => 1
  end.

(** [func (p *singleConnPool) Close() error] *)
Definition Close : M St (option error) :=
  p <- self ;;
  err <- match cn p with
         | Some _ =>
             if reusable p
             then in_pool (Pool.Put (cn p))
             else in_pool (Pool.Remove (cn p))
         | None => ret None
         end ;;
  update (set_cn None) ;;;
  ret err.

End Over.
Arguments singleConnPool : clear implicits.
End SingleConnPool.

#[export] Instance singleConnPool_pool {E P : Type} `{!Pool.pool E P} :
    Pool.pool E (SingleConnPool.singleConnPool P) :=
  {| Pool.Get := SingleConnPool.Get;
     Pool.Put := SingleConnPool.Put;
     Pool.Remove := SingleConnPool.Remove;
     Pool.Len := SingleConnPool.Len;
     Pool.Close := SingleConnPool.Close |}.

(** ** Vocabulary of the properties *)

Section Vocabulary.
Context {E : Type}.
Implicit Types (p : ConnPool.connPool E) (w : world E) (c : Conn.conn E).

(** The object a [*conn] points to, if it points to one. *)
Definition points_to w (cn : option ptr) : option (Conn.conn E) :=
  match cn with
  | Some a => heap w !! a
  | None => None
  end.

(** How long the connection behind [cn] has been idle: what the sweep
    compares with [idleTimeout]. *)
Definition idle_time w (cn : option ptr) : option Duration :=
  match points_to w cn with
  | Some c => Some (Sub (now w) (Conn.UsedAt c))
  | None => None
  end.

Definition expired p w (cn : option ptr) : bool :=
  match idle_time w cn with
  | Some d => ConnPool.idleTimeout p <? d
  | None => false
  end.

(** What [closeConn] runs on the transport of [c]: the hook when there is
    one, the transport's own [Close] otherwise. *)
Definition closer p c : E -> option error * E :=
  match ConnPool.close p with
  | Some hook => hook (Conn.Cn c)
  | None => netClose (Conn.Cn c)
  end.

(** The event that a close of [c] leaves in the trace. *)
Definition close_event p c (r : option error) : event :=
  match ConnPool.close p with
  | Some _ => EvCloseHook (fd (Conn.Cn c)) r
  | None => EvConnClose (fd (Conn.Cn c)) r
  end.

(** The world after hooks moved their state to [x] and left [evs]. *)
Definition with_ext (x : E) (evs : list event) w : world E :=
  {| now := now w; ext := x; heap := heap w; trace := trace w ++ evs |}.

(** Between two calls time passes and the hooks' state may move. *)
Definition env (t : Time) (x : E) w : world E :=
  {| now := t; ext := x; heap := heap w; trace := trace w |}.

Definition fresh_world (x : E) : world E :=
  {| now := 0; ext := x; heap := []; trace := [] |}.

(** The idle list with the first expired entry (from the front) taken
    out: what one sweep leaves. *)
Fixpoint evict_first p w (es : list (GoList.Element (option ptr)))
    : list (GoList.Element (option ptr)) :=
  match es with
  | [] => []
  | e :: rest =>
      if expired p w (GoList.Value e) then rest else e :: evict_first p w rest
  end.

(** The world after [Put] stamped the object at [a] and signalled. *)
Definition stamped (a : ptr) c w : world E :=
  {| now := now w; ext := ext w;
     heap := <[a := Conn.set_UsedAt (now w) c]> (heap w);
     trace := trace w ++ [EvSignal] |}.

(** The elements of the idle list replaced, the rest of the pool kept. *)
Definition with_elems (es : list (GoList.Element (option ptr))) p
    : ConnPool.connPool E :=
  ConnPool.set_conns
    {| GoList.elems := es; GoList.next_id := GoList.next_id (ConnPool.conns p) |} p.

(** The idle entries a [Get] finds after its sweep. *)
Definition after_sweep p w : list (GoList.Element (option ptr)) :=
  if 0 <? ConnPool.idleTimeout p
  then evict_first p w (GoList.elems (ConnPool.conns p))
  else GoList.elems (ConnPool.conns p).

(** The world after a dial that answered [r] and moved the hooks' state to
    [x]; a transport is wrapped in a new [conn] at the next address. *)
Definition dialled p (r : netConn E + error) (x : E) w : world E :=
  {| now := now w; ext := x;
     heap := match r with
             | inl rw => heap w ++ [ {| Conn.Cn := rw; Conn.UsedAt := 0;
                                        Conn.readTimeout := ConnPool.readTimeout p;
                                        Conn.writeTimeout := ConnPool.writeTimeout p |} ]
             | inr _ => heap w
             end;
     trace := trace w ++ [EvDial match r with
                                 | inl rw => inl (fd rw)
                                 | inr err => inr err
                                 end] |}.

(** The events of closes that succeeded on [cs], in order. *)
Definition closed_ok p (cs : list (Conn.conn E)) : list event :=
  (fun c => close_event p c None) <$> cs.

(** Closing the connections [cs] one after the other from hooks' state
    [x], up to and including the first close that fails: the events, the
    error of that close (or nil), and the hooks' state at the end. *)
Fixpoint close_in_order p (cs : list (Conn.conn E)) (x : E)
    : list event * option error * E :=
  match cs with
  | [] => ([], None, x)
  | c :: cs =>
      let r := closer p c x in
      match r.1 with
      | Some _ => ([close_event p c r.1], r.1, r.2)
      | None =>
          let '(evs, err, x') := close_in_order p cs r.2 in
          (close_event p c None :: evs, err, x')
      end
  end.

(** *** Sequences of calls *)

(** A completed call, with what [Get] answered. *)
Inductive label : Type :=
| LGet (r : option ptr * bool * option error)
| LPut (cn : option ptr)
| LRemove (cn : option ptr).

Inductive step : ConnPool.connPool E * world E -> label ->
                 ConnPool.connPool E * world E -> Prop :=
| step_Get p w t x r s' :
    ConnPool.Get (p, env t x w) = Done (r, s') ->
    step (p, w) (LGet r) s'
| step_Put p w t x cn err s' :
    ConnPool.Put cn (p, env t x w) = Done (err, s') ->
    step (p, w) (LPut cn) s'
| step_Remove p w t x cn err s' :
    ConnPool.Remove cn (p, env t x w) = Done (err, s') ->
    step (p, w) (LRemove cn) s'.

Inductive steps : ConnPool.connPool E * world E -> list label ->
                  ConnPool.connPool E * world E -> Prop :=
| steps_nil s : steps s [] s
| steps_cons s l s' ls s'' :
    step s l s' -> steps s' ls s'' -> steps s (l :: ls) s''.

(** A call to make, and the calls made one after the other at the times
    given with them (the hooks' state is left alone in between). *)
Inductive invocation : Type :=
| DoGet
| DoPut (cn : option ptr)
| DoRemove (cn : option ptr).

Definition perform (k : invocation) : M (ConnPool.connPool E * world E) label :=
  match k with
  | DoGet => r <- ConnPool.Get ;; ret (LGet r)
  | DoPut cn => _ <- ConnPool.Put cn ;; ret (LPut cn)
  | DoRemove cn => _ <- ConnPool.Remove cn ;; ret (LRemove cn)
  end.

Fixpoint run (ks : list (Time * invocation)) (s : ConnPool.connPool E * world E)
    : outcome (list label * (ConnPool.connPool E * world E)) :=
  match ks with
  | [] => Done ([], s)
  | (t, k) :: ks =>
      match perform k (s.1, env t (ext s.2) s.2) with
      | Done (l, s') =>
          match run ks s' with
          | Done (ls, s'') => Done (l :: ls, s'')
          | Panic msg => Panic msg
          | Blocked => Blocked
          | OutOfFuel => OutOfFuel
          end
      | Panic msg => Panic msg
      | Blocked => Blocked
      | OutOfFuel => OutOfFuel
      end
  end.

(** Takes one occurrence of [cn] out of the connections handed out. *)
Fixpoint take_out (cn : option ptr) (out : list (option ptr))
    : option (list (option ptr)) :=
  match out with
  | [] => None
  | x :: rest =>
      if decide (x = cn) then Some rest
      else match take_out cn rest with
           | Some rest' => Some (x :: rest')
           | None => None
           end
  end.

(** The connections handed out and not yet given back, after one more
    call: a [Get] that succeeded hands one out, a [Put] or a [Remove] gives
    one back, and must be given one that is out. *)
Definition account (out : list (option ptr)) (l : label)
    : option (list (option ptr)) :=
  match l with
  | LGet (cn, _, None) => Some (cn :: out)
  | LGet (_, _, Some _) => Some out
  | LPut cn | LRemove cn => take_out cn out
  end.

(** ... after the calls [ls]; [None] when some call gave back a connection
    the caller did not hold. *)
Fixpoint checked_out (out : list (option ptr)) (ls : list label)
    : option (list (option ptr)) :=
  match ls with
  | [] => Some out
  | l :: ls =>
      match account out l with
      | Some out' => checked_out out' ls
      | None => None
      end
  end.

Definition disciplined (ls : list label) : Prop := is_Some (checked_out [] ls).

(** The idle list is well-formed and holds live objects: so it is in
    every state a pool reaches from [newConnPool]. *)
Definition Sound (s : ConnPool.connPool E * world E) : Prop :=
  GoList.wf (ConnPool.conns s.1)
  /\ Forall (fun cn => is_Some (points_to s.2 cn)) (GoList.values (ConnPool.conns s.1)).

(** What holds of a pool used with discipline, [out] being the connections
    handed out and [n] a bound on the calls made: the idle and the
    handed-out connections together are within the live count. *)
Definition Inv (s : ConnPool.connPool E * world E) (out : list (option ptr))
    (n : Z) : Prop :=
  Sound s
  /\ ConnPool.Len s.1 + Z.of_nat (length out) <= ConnPool.size s.1
  /\ ConnPool.size s.1 <= n.

(** What holds of a pool without idle timeout, however it is used, [n]
    being a bound on the calls made: the live count is within [maxSize]. *)
Definition Bounded (s : ConnPool.connPool E * world E) (n : Z) : Prop :=
  Sound s
  /\ - n <= ConnPool.size s.1
  /\ ConnPool.size s.1 <= ConnPool.maxSize s.1.

End Vocabulary.

(** ** Concrete pools and worlds *)

Module Scenario.

(** Transport number [n]; its own [Close] succeeds. *)
Definition transport (n : nat) : netConn nat :=
  {| fd := n; netClose := fun x => (None, x) |}.

(** A dial hook that always connects: the [n]-th call hands out
    transport [n]. *)
Definition dial_ok (n : nat) : (netConn nat + error) * nat :=
  (inl (transport n), S n).

(** A close hook that fails on transport 1 and succeeds on the others. *)
Definition close_1_fails (c : netConn nat) (x : nat) : option error * nat :=
  (if Nat.eqb (fd c) 1 then Some "broken pipe"%string else None, x).

(** A close hook that always fails. *)
Definition close_fails (c : netConn nat) (x : nat) : option error * nat :=
  (Some "broken pipe"%string, x).

(** [maxSize = 1], [idleTimeout = 10]. *)
Definition pool_1 : ConnPool.connPool nat :=
  ConnPool.newConnPool dial_ok None 1 0 0 10.

(** [maxSize = 2], [idleTimeout = 10]. *)
Definition pool_2 : ConnPool.connPool nat :=
  ConnPool.newConnPool dial_ok None 2 0 0 10.

(** [maxSize = 1], no idle timeout, a close hook that always fails. *)
Definition pool_fail : ConnPool.connPool nat :=
  ConnPool.newConnPool dial_ok (Some close_fails) 1 0 0 0.

(** [maxSize = 3], no idle timeout, a close hook that fails on
    transport 1. *)
Definition pool_3 : ConnPool.connPool nat :=
  ConnPool.newConnPool dial_ok (Some close_1_fails) 3 0 0 0.

Definition world_0 : world nat := fresh_world 0%nat.

(** [maxSize = 2], no idle timeout, the transports close themselves. *)
Definition pool_0 : ConnPool.connPool nat :=
  ConnPool.newConnPool dial_ok None 2 0 0 0.

(** A world at time 5 with one connection, over transport 7, at
    address 0. *)
Definition world_1 : world nat :=
  {| now := 5; ext := 0%nat;
     heap := [ {| Conn.Cn := transport 7; Conn.UsedAt := 0;
                  Conn.readTimeout := 0; Conn.writeTimeout := 0 |} ];
     trace := [] |}.

(** [Get] dials A; A is put back at time 0; the [Get] at time 100 finds A
    idle for longer than the timeout of 10. *)
Definition evict_then_dial : list (Time * invocation) :=
  [(0, DoGet); (0, DoPut (Some 0%nat)); (100, DoGet)].

(** A (address 0) is put back at time 0 and B (address 1) at time 1. *)
Definition two_idle : list (Time * invocation) :=
  [(0, DoGet); (0, DoGet); (0, DoPut (Some 0%nat)); (1, DoPut (Some 1%nat))].

(** The same connection put back twice. *)
Definition double_put : list (Time * invocation) :=
  [(0, DoGet); (0, DoPut (Some 0%nat)); (0, DoPut (Some 0%nat))].

(** The scenario of the specification: A and B are dialled, A is put back
    and handed out again; then B is discarded. *)
Definition reuse : list (Time * invocation) :=
  [(0, DoGet); (1, DoGet); (2, DoPut (Some 0%nat)); (3, DoGet);
   (4, DoRemove (Some 1%nat))].

(** Three connections dialled and put back: the idle list holds the
    transports 2, 1, 0 from the front. *)
Definition three_idle : list (Time * invocation) :=
  [(0, DoGet); (0, DoGet); (0, DoGet);
   (1, DoPut (Some 0%nat)); (2, DoPut (Some 1%nat)); (3, DoPut (Some 2%nat))].

(** The state a run ends in (the starting state if it does not end). *)
Definition after (ks : list (Time * invocation))
    (s : ConnPool.connPool nat * world nat) : ConnPool.connPool nat * world nat :=
  match run ks s with
  | Done (_, s') => s'
  | _ => s
  end.

(** A pool whose every method panics. *)
Definition dead_pool : Pool.pool nat unit :=
  {| Pool.Get := panic "dead";
     Pool.Put := fun _ => panic "dead";
     Pool.Remove := fun _ => panic "dead";
     Pool.Len := fun _ => 0;
     Pool.Close := panic "dead" |}.

End Scenario.

(** ** Vocabulary of the further properties *)

Section MoreVocabulary.
Context {E : Type}.
Implicit Types (p : ConnPool.connPool E) (w : world E).

(** [n] calls of [Get] in a row, none given back: what they answered. *)
Fixpoint Gets (n : nat)
    : M (ConnPool.connPool E * world E) (list (option ptr * bool * option error)) :=
  match n with
  | O => ret []
  | S n => r <- ConnPool.Get ;; rs <- Gets n ;; ret (r :: rs)
  end.

(** The dial hook connects whatever the state it is called in. *)
Definition always_connects (dial : E -> (netConn E + error) * E) : Prop :=
  forall x, exists rw x', dial x = (inl rw, x').

(** An event of the condition variable. *)
Definition is_signal (ev : event) : bool :=
  match ev with
  | EvSignal => true
  | _ => false
  end.

(** The [conn] that [newConn] makes for the pool [p] over [rw]. *)
Definition new_conn_of p (rw : netConn E) : Conn.conn E :=
  {| Conn.Cn := rw; Conn.UsedAt := 0;
     Conn.readTimeout := ConnPool.readTimeout p;
     Conn.writeTimeout := ConnPool.writeTimeout p |}.

(** What holds of a pool without idle timeout that is used with
    discipline, [out] being the connections handed out and [n] a bound on
    the calls made: the live count is the number of the idle and the
    handed-out connections. *)
Definition Exact (s : ConnPool.connPool E * world E) (out : list (option ptr))
    (n : Z) : Prop :=
  Sound s
  /\ ConnPool.Len s.1 + Z.of_nat (length out) = ConnPool.size s.1
  /\ ConnPool.size s.1 <= n.

End MoreVocabulary.

Module MoreScenario.

(** A dial hook that never connects. *)
Definition dial_refused (n : nat) : (netConn nat + error) * nat :=
  (inr "connection refused"%string, S n).

(** [maxSize = 1], no idle timeout, no connection to be had. *)
Definition pool_refused : ConnPool.connPool nat :=
  ConnPool.newConnPool dial_refused None 1 0 0 0.

(** A and B are dialled, A (address 0) is put back at time 0. *)
Definition one_idle : list (Time * invocation) :=
  [(0, DoGet); (0, DoGet); (0, DoPut (Some 0%nat))].

(** [pool_1] with its one slot taken. *)
Definition pool_1_full : ConnPool.connPool nat :=
  ConnPool.set_size 1 Scenario.pool_1.

End MoreScenario.

(** * Properties *)

Create HintDb pool.

#[local] Hint Unfold bind ret panic wait out_of_fuel self update the_world
  set_world emit call deref store alloc newConn Since : pool.
#[local] Hint Unfold ConnPool.call_dial ConnPool.closeConn ConnPool.Put
  ConnPool.Remove ConnPool.Len ConnPool.Size : pool.
#[local] Hint Unfold SingleConnPool.Get SingleConnPool.Put SingleConnPool.Remove
  SingleConnPool.Close SingleConnPool.in_pool SingleConnPool.Len : pool.

(** Runs the straight-line part of a method. *)
Ltac exec := repeat (autounfold with pool; cbn).

(** ** Machine integers *)

Lemma wrap_in_range (z : Z) : GoInt.in_range z -> GoInt.wrap z = z.
Proof.
  unfold GoInt.in_range, GoInt.wrap, GoInt.min_int, GoInt.max_int. intros H.
  rewrite Z.mod_small; lia.
Qed.

Lemma decr_above_min (z : Z) :
  GoInt.min_int < z <= GoInt.max_int -> GoInt.decr z = z - 1.
Proof.
  intros H. unfold GoInt.decr. apply wrap_in_range.
  unfold GoInt.in_range, GoInt.min_int, GoInt.max_int in *. lia.
Qed.

Lemma incr_below_max (z : Z) :
  GoInt.min_int <= z < GoInt.max_int -> GoInt.incr z = z + 1.
Proof.
  intros H. unfold GoInt.incr. apply wrap_in_range.
  unfold GoInt.in_range, GoInt.min_int, GoInt.max_int in *. lia.
Qed.

(** ** Remove *)

Section RemoveFacts.
Context {E : Type}.
Implicit Types (p : ConnPool.connPool E) (w : world E) (c : Conn.conn E).

Lemma closeConn_allocated p w cn c :
  points_to w cn = Some c ->
  ConnPool.closeConn cn (p, w)
  = Done ((closer p c (ext w)).1,
          (p, with_ext (closer p c (ext w)).2
                [close_event p c (closer p c (ext w)).1] w)).
Proof.
  destruct cn as [a|]; [cbn|discriminate]. intros Ha.
  unfold closer, close_event, with_ext. exec. rewrite Ha. exec.
  destruct (ConnPool.close p) as [hook|]; exec.
  - destruct (hook (Conn.Cn c) (ext w)); reflexivity.
  - destruct (netClose (Conn.Cn c) (ext w)); reflexivity.
Qed.

Lemma Remove_allocated p w cn c :
  points_to w cn = Some c ->
  ConnPool.Remove cn (p, w)
  = Done ((closer p c (ext w)).1,
          (ConnPool.set_size (GoInt.decr (ConnPool.size p)) p,
           with_ext (closer p c (ext w)).2
             [close_event p c (closer p c (ext w)).1; EvSignal] w)).
Proof.
  intros Ha. unfold ConnPool.Remove, bind at 1.
  destruct cn as [a|]; [|discriminate].
  rewrite (closeConn_allocated p w (Some a) c Ha). unfold with_ext. exec.
  rewrite <- app_assoc. reflexivity.
Qed.

Lemma Remove_nil p w :
  ConnPool.Remove None (p, w)
  = Done (None, (ConnPool.set_size (GoInt.decr (ConnPool.size p)) p,
                 with_ext (ext w) [EvSignal] w)).
Proof. reflexivity. Qed.



End RemoveFacts.



(** ** The pinned connection *)

Section PinnedFacts.
Context {E P : Type} `{!Pool.pool E P}.
Implicit Types (sp : SingleConnPool.singleConnPool P) (w : world E).

(** C5: with a connection other than the one held, [Put] and [Remove]
    panic instead of returning an error; with the one held, [Put] returns
    nil and leaves the adapter and the pool under it as they were, and
    [Remove] drops the held reference and returns nil. *)
Theorem C5_Put_Remove_foreign_connection_panics sp w (c : option ptr) :
  (SingleConnPool.cn sp <> c ->
     SingleConnPool.Put c (sp, w) = Panic "p.cn != cn"
     /\ SingleConnPool.Remove c (sp, w) = Panic "p.cn != cn")
  /\ (SingleConnPool.cn sp = c ->
     SingleConnPool.Put c (sp, w) = Done (None, (sp, w))
     /\ SingleConnPool.Remove c (sp, w)
        = Done (None, (SingleConnPool.set_cn None sp, w))).
Proof.
  split; intros Hc; exec; destruct (decide (SingleConnPool.cn sp = c)); done.
Qed.

(** C8: once a connection is held, [Get] answers that connection, not new
    and without error, and leaves the adapter, the pool under it and the
    world untouched, whatever the pool under it is: the underlying [Get]
    is not called, and a further [Get] answers the same. *)
Theorem C8_Get_returns_held_connection sp w (a : ptr) :
  SingleConnPool.cn sp = Some a ->
  SingleConnPool.Get (sp, w) = Done ((Some a, false, None), (sp, w))
  /\ (SingleConnPool.Get ;;; SingleConnPool.Get) (sp, w)
     = Done ((Some a, false, None), (sp, w)).
Proof.
  intros Ha. exec. rewrite Ha. cbn. rewrite Ha. done.
Qed.

End PinnedFacts.

(** ** Put *)

Section PutFacts.
Context {E : Type}.
Implicit Types (p : ConnPool.connPool E) (w : world E) (c : Conn.conn E).

Lemma Put_allocated p w (a : ptr) c :
  heap w !! a = Some c ->
  ConnPool.Put (Some a) (p, w)
  = Done (None, (ConnPool.set_conns (GoList.PushFront (ConnPool.conns p) (Some a)) p,
                 stamped a c w)).
Proof. intros Ha. exec. rewrite Ha. reflexivity. Qed.

Lemma Len_PushFront {A} (l : GoList.List A) (v : A) :
  GoList.Len (GoList.PushFront l v) = GoList.Len l + 1.
Proof. unfold GoList.Len. cbn [GoList.PushFront GoList.elems length]. lia. Qed.

End PutFacts.

(** ** Closing the pinned connection *)

Section PinnedOverConnPool.
Context {E : Type}.
Implicit Types (sp : SingleConnPool.singleConnPool (ConnPool.connPool E)).
Implicit Types (w : world E) (c : Conn.conn E).

(** C6: [Close] of an adapter over a [connPool].  With nothing held it
    returns nil and changes nothing.  With a connection held it hands it
    to the pool, by [Put] when [reusable] (the idle [Len] of the pool grows
    by one, its live count stays) and by [Remove] when not (the live count
    of the pool is decremented, its idle list stays), drops the held
    reference in both cases, and returns what the call to the pool
    returned. *)
Theorem C6_Close_releases_held_connection sp w :
  (SingleConnPool.cn sp = None ->
     SingleConnPool.Close (sp, w) = Done (None, (sp, w)))
  /\ (forall (a : ptr) c,
        SingleConnPool.cn sp = Some a -> heap w !! a = Some c ->
        exists err q w',
          SingleConnPool.Close (sp, w)
          = Done (err, (SingleConnPool.newSingleConnPool q None
                          (SingleConnPool.reusable sp), w'))
          /\ (SingleConnPool.reusable sp = true ->
                ConnPool.Put (Some a) (SingleConnPool.pool sp, w) = Done (err, (q, w'))
                /\ ConnPool.Len q = ConnPool.Len (SingleConnPool.pool sp) + 1
                /\ ConnPool.size q = ConnPool.size (SingleConnPool.pool sp))
          /\ (SingleConnPool.reusable sp = false ->
                ConnPool.Remove (Some a) (SingleConnPool.pool sp, w) = Done (err, (q, w'))
                /\ ConnPool.size q = GoInt.decr (ConnPool.size (SingleConnPool.pool sp))
                /\ (GoInt.min_int < ConnPool.size (SingleConnPool.pool sp) <= GoInt.max_int ->
                    ConnPool.size q = ConnPool.size (SingleConnPool.pool sp) - 1)
                /\ ConnPool.conns q = ConnPool.conns (SingleConnPool.pool sp))).
Proof.
  destruct sp as [q0 held reusable]. cbn [SingleConnPool.cn SingleConnPool.pool
    SingleConnPool.reusable]. split.
  - intros ->. reflexivity.
  - intros a c -> Ha. destruct reusable.
    + eexists _, _, _. split; [|split; [intros _|discriminate]].
      * unfold SingleConnPool.Close, bind at 1, self. cbn -[Pool.Put].
        unfold bind at 1, SingleConnPool.in_pool. cbn [fst snd SingleConnPool.pool Pool.Put connPool_pool].
        rewrite (Put_allocated q0 w a c Ha). reflexivity.
      * split; [apply (Put_allocated q0 w a c Ha)|]. split; [|reflexivity].
        unfold ConnPool.Len. cbn [ConnPool.set_conns ConnPool.conns].
        apply Len_PushFront.
    + eexists _, _, _. split; [|split; [discriminate|intros _]].
      * unfold SingleConnPool.Close, bind at 1, self. cbn -[Pool.Remove].
        unfold bind at 1, SingleConnPool.in_pool. cbn [fst snd SingleConnPool.pool Pool.Remove connPool_pool].
        rewrite (Remove_allocated q0 w (Some a) c Ha). reflexivity.
      * split; [apply (Remove_allocated q0 w (Some a) c Ha)|].
        split; [reflexivity|]. split; [|reflexivity].
        cbn [ConnPool.set_size ConnPool.size]. apply decr_above_min.
Qed.

End PinnedOverConnPool.

(** ** container/list *)

Section ListFacts.
Context {A : Type}.
Implicit Types (l : GoList.List A) (e : GoList.Element A).
Implicit Types (es pre rest : list (GoList.Element A)).

Lemma successor_absent (i : nat) es :
  i ∉ (GoList.id <$> es) -> GoList.successor i es = None.
Proof.
  induction es as [|x es IH]; [done|]. cbn. intros Hi.
  apply not_elem_of_cons in Hi as [Hne Hi].
  destruct (Nat.eqb_spec (GoList.id x) i); [congruence | auto].
Qed.

Lemma successor_here e pre rest :
  GoList.id e ∉ (GoList.id <$> pre) ->
  GoList.successor (GoList.id e) (pre ++ e :: rest) = head rest.
Proof.
  induction pre as [|x pre IH]; cbn.
  - intros _. by rewrite Nat.eqb_refl.
  - intros Hi. apply not_elem_of_cons in Hi as [Hne Hi].
    destruct (Nat.eqb_spec (GoList.id x) (GoList.id e)); [congruence | auto].
Qed.

Lemma unlink_here e pre rest :
  GoList.id e ∉ (GoList.id <$> pre) ->
  GoList.unlink (GoList.id e) (pre ++ e :: rest) = pre ++ rest.
Proof.
  induction pre as [|x pre IH]; cbn.
  - intros _. by rewrite Nat.eqb_refl.
  - intros Hi. apply not_elem_of_cons in Hi as [Hne Hi].
    destruct (Nat.eqb_spec (GoList.id x) (GoList.id e)); [congruence|].
    by rewrite IH.
Qed.

Lemma length_unlink (i : nat) es :
  (length (GoList.unlink i es) <= length es)%nat.
Proof.
  induction es as [|x es IH]; cbn; [lia|].
  destruct (GoList.id x =? i)%nat; cbn; lia.
Qed.

Lemma Next_here l e pre rest :
  GoList.elems l = pre ++ e :: rest ->
  GoList.id e ∉ (GoList.id <$> pre) ->
  GoList.Next l e = head rest.
Proof. unfold GoList.Next. intros ->. apply successor_here. Qed.

Lemma Remove_here l e pre rest :
  GoList.elems l = pre ++ e :: rest ->
  GoList.id e ∉ (GoList.id <$> pre) ->
  GoList.Remove l e
  = {| GoList.elems := pre ++ rest; GoList.next_id := GoList.next_id l |}.
Proof. unfold GoList.Remove. intros -> Hpre. by rewrite unlink_here. Qed.

Lemma Next_removed l e pre rest :
  GoList.elems l = pre ++ e :: rest ->
  GoList.id e ∉ (GoList.id <$> (pre ++ rest)) ->
  GoList.Next (GoList.Remove l e) e = None.
Proof.
  intros Hl Habs. rewrite (Remove_here l e pre rest Hl).
  - by apply successor_absent.
  - rewrite fmap_app in Habs. intros Hin. apply Habs, elem_of_app. by left.
Qed.

Lemma List_eta l : {| GoList.elems := GoList.elems l; GoList.next_id := GoList.next_id l |} = l.
Proof. by destruct l. Qed.

(** In a well-formed list the cell at a position is found there. *)
Lemma NoDup_split_here e pre rest :
  NoDup (GoList.id <$> (pre ++ e :: rest)) ->
  (GoList.id e ∉ (GoList.id <$> pre))
  /\ (GoList.id e ∉ (GoList.id <$> (pre ++ rest)))
  /\ NoDup (GoList.id <$> ((pre ++ [e]) ++ rest)).
Proof.
  intros Hnd. rewrite <- (assoc_L (++)). cbn. split_and!; [| |done].
  - rewrite fmap_app, fmap_cons in Hnd.
    apply NoDup_app in Hnd as (_ & Hd & _). intros Hin.
    apply (Hd _ Hin). left.
  - rewrite fmap_app, fmap_cons in Hnd. rewrite fmap_app.
    apply NoDup_app in Hnd as (_ & Hd & Hnd2).
    apply NoDup_cons in Hnd2 as [Hn _].
    intros [Hin|Hin]%elem_of_app; [|done].
    apply (Hd _ Hin). left.
Qed.

End ListFacts.

Section SweepFacts.
Context {E : Type}.
Implicit Types (p : ConnPool.connPool E) (w : world E) (c : Conn.conn E).
Implicit Types (e : GoList.Element (option ptr)).
Implicit Types (pre rest es : list (GoList.Element (option ptr))).

Lemma set_conns_eta p : ConnPool.set_conns (ConnPool.conns p) p = p.
Proof. by destruct p. Qed.

Lemma deref_allocated {P} (q : P) w cn c :
  points_to w cn = Some c -> deref cn (q, w) = Done (c, (q, w)).
Proof.
  destruct cn as [a|]; [cbn|discriminate]. intros Ha. exec. by rewrite Ha.
Qed.

Lemma with_elems_eta p : with_elems (GoList.elems (ConnPool.conns p)) p = p.
Proof. unfold with_elems. by rewrite List_eta, set_conns_eta. Qed.

Lemma sweep_from_nil fuel (s : ConnPool.connPool E * world E) :
  ConnPool.sweep_from fuel None s = Done (tt, s).
Proof. by destruct fuel. Qed.

Lemma sweep_from_spec rest : forall e pre fuel p w,
  GoList.elems (ConnPool.conns p) = pre ++ e :: rest ->
  NoDup (GoList.id <$> (pre ++ e :: rest)) ->
  Forall (fun e => is_Some (points_to w (GoList.Value e))) (e :: rest) ->
  (length (e :: rest) <= fuel)%nat ->
  ConnPool.sweep_from fuel (Some e) (p, w)
  = Done (tt, (with_elems (pre ++ evict_first p w (e :: rest)) p, w)).
Proof.
  induction rest as [|e' rest IH]; intros e pre fuel p w Hes Hnd Hall Hfuel.
  all: destruct fuel as [|fuel]; [cbn in Hfuel; lia|].
  all: apply Forall_cons in Hall as [[c Hc] Hall].
  all: destruct (NoDup_split_here _ _ _ Hnd) as (Hpre & Habs & Hnd').
  all: cbn [ConnPool.sweep_from evict_first]; unfold bind at 1.
  all: rewrite (deref_allocated p w _ c Hc).
  all: unfold expired, idle_time; rewrite Hc.
  all: unfold bind at 1, Since, bind at 1, the_world, ret, bind at 1, self.
  all: cbn [fst snd].
  all: destruct (ConnPool.idleTimeout p <? Sub (now w) (Conn.UsedAt c)) eqn:Hexp.
  all: unfold bind, update, self; cbn [fst snd ConnPool.set_conns ConnPool.conns].
  - rewrite (Next_removed _ _ _ _ Hes Habs), sweep_from_nil.
    by rewrite (Remove_here _ _ _ _ Hes Hpre).
  - rewrite (Next_here _ _ _ _ Hes Hpre), sweep_from_nil. cbn.
    pose proof (with_elems_eta p) as Heta. rewrite Hes in Heta.
    by rewrite Heta.
  - rewrite (Next_removed _ _ _ _ Hes Habs), sweep_from_nil.
    by rewrite (Remove_here _ _ _ _ Hes Hpre).
  - rewrite (Next_here _ _ _ _ Hes Hpre). cbn [head].
    rewrite (IH e' (pre ++ [e]) fuel p w).
    + unfold expired, idle_time. rewrite <- (assoc_L (++)). reflexivity.
    + by rewrite <- (assoc_L (++)).
    + done.
    + done.
    + cbn in *. lia.
Qed.

(** One sweep takes out the first expired entry, counted from the front,
    and nothing else; it touches neither the world nor the live count. *)
Lemma sweep_spec p w :
  GoList.wf (ConnPool.conns p) ->
  Forall (fun cn => is_Some (points_to w cn)) (GoList.values (ConnPool.conns p)) ->
  ConnPool.sweep (p, w)
  = Done (tt, (with_elems (evict_first p w (GoList.elems (ConnPool.conns p))) p, w)).
Proof.
  intros [Hnd _] Hall. unfold ConnPool.sweep, bind, self. cbn [fst snd].
  destruct (GoList.elems (ConnPool.conns p)) as [|e rest] eqn:Hes.
  - unfold GoList.Front. rewrite Hes. cbn.
    pose proof (with_elems_eta p) as Heta. rewrite Hes in Heta.
    by rewrite Heta.
  - unfold GoList.Front. rewrite Hes. cbn [head].
    unfold GoList.values in Hall. rewrite Hes in Hall.
    rewrite Forall_fmap in Hall.
    apply (sweep_from_spec rest e [] _ p w); [done|done|exact Hall|cbn; lia].
Qed.

End SweepFacts.

(** ** Get *)

Section GetFacts.
Context {E : Type}.
Implicit Types (p : ConnPool.connPool E) (w : world E) (c : Conn.conn E).
Implicit Types (e : GoList.Element (option ptr)).
Implicit Types (pre rest es : list (GoList.Element (option ptr))).

(** A sweep keeps the entries that are not expired, and all of them when
    none is. *)
Lemma evict_first_keeps p w es e :
  e ∈ es -> expired p w (GoList.Value e) = false -> e ∈ evict_first p w es.
Proof.
  induction es as [|e0 es IH]; cbn; [done|]. intros Hin Hfresh.
  destruct (expired p w (GoList.Value e0)) eqn:He0.
  - apply elem_of_cons in Hin as [->|Hin]; [congruence|done].
  - apply elem_of_cons in Hin as [->|Hin]; [left|right; auto].
Qed.

Lemma evict_first_none_expired p w es :
  Forall (fun e => expired p w (GoList.Value e) = false) es ->
  evict_first p w es = es.
Proof.
  induction 1 as [|e es He _ IH]; cbn; [done|]. by rewrite He, IH.
Qed.

Lemma length_evict_first p w es :
  (length (evict_first p w es) <= length es)%nat.
Proof.
  induction es as [|e es IH]; cbn; [lia|].
  destruct (expired p w (GoList.Value e)); cbn; lia.
Qed.

Lemma length_after_sweep p w :
  (length (after_sweep p w) <= length (GoList.elems (ConnPool.conns p)))%nat.
Proof.
  unfold after_sweep. destruct (0 <? ConnPool.idleTimeout p); [|lia].
  apply length_evict_first.
Qed.

Lemma Get_blocked p w :
  GoList.elems (ConnPool.conns p) = [] ->
  ConnPool.maxSize p <= ConnPool.size p ->
  ConnPool.Get (p, w) = Blocked.
Proof.
  intros Hes Hfull. unfold ConnPool.Get, bind, self. cbn [fst snd].
  unfold GoList.Len. rewrite Hes. cbn [length Z.of_nat Z.eqb andb].
  by destruct (Z.leb_spec (ConnPool.maxSize p) (ConnPool.size p)); [|lia].
Qed.

(** The first part of [Get], up to the test of the idle list after the
    sweep. *)
Lemma Get_swept p w :
  GoList.wf (ConnPool.conns p) ->
  Forall (fun cn => is_Some (points_to w cn)) (GoList.values (ConnPool.conns p)) ->
  (GoList.elems (ConnPool.conns p) <> [] \/ ConnPool.size p < ConnPool.maxSize p) ->
  ConnPool.Get (p, w)
  = match after_sweep p w with
    | [] =>
        let r := (ConnPool.dial p (ext w)).1 in
        let x := (ConnPool.dial p (ext w)).2 in
        match r with
        | inl rw =>
            Done ((Some (length (heap w)), true, None),
                  (ConnPool.set_size (GoInt.incr (ConnPool.size p)) (with_elems [] p),
                   dialled p r x w))
        | inr err =>
            Done ((None, false, Some err), (with_elems [] p, dialled p r x w))
        end
    | e :: rest => Done ((GoList.Value e, false, None), (with_elems rest p, w))
    end.
Proof.
  intros Hwf Hall Hgo. unfold ConnPool.Get. unfold bind at 1, self. cbn [fst snd].
  replace ((GoList.Len (ConnPool.conns p) =? 0) &&
           (ConnPool.maxSize p <=? ConnPool.size p)) with false.
  2:{ symmetry. apply andb_false_iff. unfold GoList.Len. destruct Hgo as [Hne|Hlt].
      - left. apply Z.eqb_neq. destruct (GoList.elems (ConnPool.conns p)); [done|cbn; lia].
      - right. apply Z.leb_gt. lia. }
  assert (Hsw : (if 0 <? ConnPool.idleTimeout p then ConnPool.sweep else ret tt) (p, w)
                = Done (tt, (with_elems (after_sweep p w) p, w))).
  { unfold after_sweep. destruct (0 <? ConnPool.idleTimeout p).
    - by apply sweep_spec.
    - unfold ret. by rewrite with_elems_eta. }
  unfold bind at 1. rewrite Hsw. unfold bind at 1, self. cbn [fst snd].
  unfold GoList.Len, with_elems at 1. cbn [ConnPool.set_conns ConnPool.conns GoList.elems].
  destruct (after_sweep p w) as [|e rest].
  - change (Z.of_nat (length []) =? 0) with true. cbv iota.
    exec. destruct (ConnPool.dial p (ext w)) as [[rw|err] x]; reflexivity.
  - replace (Z.of_nat (length (e :: rest)) =? 0) with false
      by (symmetry; apply Z.eqb_neq; cbn; lia).
    unfold GoList.Front, with_elems at 1.
    cbn [ConnPool.set_conns ConnPool.conns GoList.elems head].
    unfold bind, update, ret. cbn [fst snd]. unfold GoList.Remove, with_elems.
    cbn. by rewrite Nat.eqb_refl.
Qed.

(** C7: on a pool whose idle list is empty, [Put(A)] and then [Get()], at
    a time when [A] has not been idle for longer than [idleTimeout] (which
    matters only when the timeout is positive), give back [A] itself, not
    new and without error; the [Get] leaves the world as it found it, so
    the dial hook was not run, and the idle list is empty again. *)
Theorem C7_Put_then_Get_reuses_connection p w (a : ptr) c (t : Time) (x : E) :
  GoList.elems (ConnPool.conns p) = [] ->
  heap w !! a = Some c ->
  (0 < ConnPool.idleTimeout p ->
   Sub t (now w) <= ConnPool.idleTimeout p) ->
  exists p1 w1,
    ConnPool.Put (Some a) (p, w) = Done (None, (p1, w1))
    /\ GoList.values (ConnPool.conns p1) = [Some a]
    /\ idle_time (env t x w1) (Some a) = Some (Sub t (now w))
    /\ exists p2,
        ConnPool.Get (p1, env t x w1)
        = Done ((Some a, false, None), (p2, env t x w1))
        /\ GoList.elems (ConnPool.conns p2) = []
        /\ ConnPool.size p2 = ConnPool.size p.
Proof.
  intros Hes Ha Hfresh. eexists _, _. split; [apply (Put_allocated p w a c Ha)|].
  assert (Hlook : heap (env t x (stamped a c w)) !! a
                  = Some (Conn.set_UsedAt (now w) c)).
  { cbn. apply list_lookup_insert_eq. by apply lookup_lt_Some in Ha. }
  split; [|split].
  - unfold GoList.values. cbn. by rewrite Hes.
  - unfold idle_time. cbn [points_to]. by rewrite Hlook.
  - eexists. rewrite Get_swept.
    + unfold after_sweep. cbn [ConnPool.set_conns ConnPool.conns ConnPool.idleTimeout
        GoList.PushFront GoList.elems]. rewrite Hes.
      assert (Hkeep : (if 0 <? ConnPool.idleTimeout p
                       then evict_first
                              (ConnPool.set_conns (GoList.PushFront (ConnPool.conns p) (Some a)) p)
                              (env t x (stamped a c w))
                              [ {| GoList.id := GoList.next_id (ConnPool.conns p);
                                   GoList.Value := Some a |} ]
                       else [ {| GoList.id := GoList.next_id (ConnPool.conns p);
                                 GoList.Value := Some a |} ])
                      = [ {| GoList.id := GoList.next_id (ConnPool.conns p);
                             GoList.Value := Some a |} ]).
      { destruct (Z.ltb_spec 0 (ConnPool.idleTimeout p)) as [Hpos|]; [|done].
        cbn [evict_first GoList.Value]. unfold expired, idle_time. cbn [points_to].
        rewrite Hlook. cbn [Conn.set_UsedAt Conn.UsedAt ConnPool.set_conns
          ConnPool.idleTimeout env now].
        specialize (Hfresh Hpos).
        by destruct (Z.ltb_spec (ConnPool.idleTimeout p) (Sub t (now w))); [lia|]. }
      rewrite Hkeep. cbn [GoList.Value]. split; [reflexivity|]. done.
    + split; cbn; rewrite Hes.
      * apply NoDup_singleton.
      * repeat constructor.
    + unfold GoList.values. cbn [ConnPool.set_conns ConnPool.conns GoList.PushFront
        GoList.elems]. rewrite Hes. apply Forall_singleton.
      exists (Conn.set_UsedAt (now w) c). exact Hlook.
    + left. done.
Qed.

End GetFacts.

(** ** Close *)

Section CloseFacts.
Context {E : Type}.
Implicit Types (p : ConnPool.connPool E) (w : world E) (c : Conn.conn E).
Implicit Types (e : GoList.Element (option ptr)).
Implicit Types (pre rest es : list (GoList.Element (option ptr))).
Implicit Types (cs : list (Conn.conn E)).

Lemma with_ext_with_ext (x1 x2 : E) (evs1 evs2 : list event) w :
  with_ext x2 evs2 (with_ext x1 evs1 w) = with_ext x2 (evs1 ++ evs2) w.
Proof. unfold with_ext. cbn. by rewrite (assoc_L (++)). Qed.

Lemma with_ext_id w : with_ext (ext w) [] w = w.
Proof. unfold with_ext. rewrite (right_id_L [] (++)). by destruct w. Qed.

Lemma close_from_nil fuel (s : ConnPool.connPool E * world E) :
  ConnPool.close_from fuel None s = Done (None, s).
Proof. by destruct fuel. Qed.

Lemma close_from_spec rest : forall e pre cs fuel p w,
  GoList.elems (ConnPool.conns p) = pre ++ e :: rest ->
  NoDup (GoList.id <$> (pre ++ e :: rest)) ->
  Forall2 (fun e c => points_to w (GoList.Value e) = Some c) (e :: rest) cs ->
  (length (e :: rest) <= fuel)%nat ->
  ConnPool.close_from fuel (Some e) (p, w)
  = Done ((close_in_order p cs (ext w)).1.2,
          (p, with_ext (close_in_order p cs (ext w)).2
                (close_in_order p cs (ext w)).1.1 w)).
Proof.
  induction rest as [|e' rest IH]; intros e pre cs fuel p w Hes Hnd Hall Hfuel.
  all: destruct fuel as [|fuel]; [cbn in Hfuel; lia|].
  all: apply Forall2_cons_inv_l in Hall as (c & cs' & Hc & Hall & ->).
  all: destruct (NoDup_split_here _ _ _ Hnd) as (Hpre & Habs & Hnd').
  all: cbn [ConnPool.close_from close_in_order]; unfold bind at 1.
  all: rewrite (closeConn_allocated p w _ c Hc).
  all: destruct (closer p c (ext w)) as [[er|] x] eqn:Hr; cbn [fst snd]; [done|].
  all: unfold bind, self; cbn [fst snd].
  all: rewrite (Next_here _ _ _ _ Hes Hpre); cbn [head].
  - apply Forall2_nil_inv_l in Hall as ->. by rewrite close_from_nil.
  - rewrite (IH e' (pre ++ [e]) cs' fuel p (with_ext x [close_event p c None] w)).
    + cbn [with_ext ext]. destruct (close_in_order p cs' x) as [[evs err] x'].
      cbn [fst snd]. by rewrite with_ext_with_ext.
    + by rewrite <- (assoc_L (++)).
    + by rewrite <- (assoc_L (++)).
    + exact Hall.
    + cbn in *. lia.
Qed.

(** What [Close] does, from what the closes answer. *)
Lemma Close_spec p w cs :
  GoList.wf (ConnPool.conns p) ->
  Forall2 (fun cn c => points_to w cn = Some c) (GoList.values (ConnPool.conns p)) cs ->
  ConnPool.Close (p, w)
  = Done ((close_in_order p cs (ext w)).1.2,
          (match (close_in_order p cs (ext w)).1.2 with
           | Some _ => p
           | None => ConnPool.set_size 0
                       (ConnPool.set_conns (GoList.Init (ConnPool.conns p)) p)
           end,
           with_ext (close_in_order p cs (ext w)).2
             (close_in_order p cs (ext w)).1.1 w)).
Proof.
  intros [Hnd _] Hall. unfold ConnPool.Close. unfold bind at 1, self. cbn [fst snd].
  unfold GoList.values in Hall. unfold GoList.Front.
  destruct (GoList.elems (ConnPool.conns p)) as [|e rest] eqn:Hes.
  - apply Forall2_nil_inv_l in Hall as ->. cbn. by rewrite with_ext_id.
  - rewrite Forall2_fmap_l in Hall. cbn [head]. unfold bind at 1.
    rewrite (close_from_spec rest e [] cs (length (e :: rest)) p w);
      [|done|done|exact Hall|done].
    by destruct (close_in_order p cs (ext w)) as [[evs [er|]] x].
Qed.

(** The closes are made in order, and the first failure is the last. *)
Lemma close_in_order_shape p cs : forall x,
  match (close_in_order p cs x).1.2 with
  | None => (close_in_order p cs x).1.1 = closed_ok p cs
  | Some er =>
      exists k c,
        cs !! k = Some c
        /\ (close_in_order p cs x).1.1
           = closed_ok p (take k cs) ++ [close_event p c (Some er)]
  end.
Proof.
  induction cs as [|c cs IH]; intros x; cbn; [done|].
  destruct (closer p c x) as [[er|] x'] eqn:Hr; cbn.
  - by exists 0%nat, c.
  - specialize (IH x'). destruct (close_in_order p cs x') as [[evs [er|]] x''];
      cbn in *.
    + destruct IH as (k & c' & Hk & ->). by exists (S k), c'.
    + by rewrite IH.
Qed.

(** C3: [Close] closes the idle connections from the front on.  When a
    close fails, [Close] returns that error at once: the closes before it
    are in the trace, in order and all successful, the failed one is the
    last event, the entries after it were not closed, and the pool (idle
    list and live count) is as it was.  When every close succeeds, [Close]
    returns nil, every entry was closed, in order, and afterwards [Len()]
    and the live count are 0. *)
Theorem C3_Close_stops_at_first_failure p w cs :
  GoList.wf (ConnPool.conns p) ->
  Forall2 (fun cn c => points_to w cn = Some c) (GoList.values (ConnPool.conns p)) cs ->
  exists err p' x evs,
    ConnPool.Close (p, w) = Done (err, (p', with_ext x evs w))
    /\ (evs, err, x) = close_in_order p cs (ext w)
    /\ match err with
       | None =>
           evs = closed_ok p cs
           /\ ConnPool.Len p' = 0 /\ ConnPool.size p' = 0
       | Some er =>
           (exists k c, cs !! k = Some c
              /\ evs = closed_ok p (take k cs) ++ [close_event p c (Some er)])
           /\ p' = p
       end.
Proof.
  intros Hwf Hall. eexists _, _, _, _. split; [apply (Close_spec p w cs Hwf Hall)|].
  pose proof (close_in_order_shape p cs (ext w)) as Hshape.
  destruct (close_in_order p cs (ext w)) as [[evs [er|]] x]; cbn [fst snd] in *.
  - done.
  - done.
Qed.

End CloseFacts.

(** ** Sequences of calls *)

Section RunFacts.
Context {E : Type}.
Implicit Types (p : ConnPool.connPool E) (w : world E) (c : Conn.conn E).
Implicit Types (s : ConnPool.connPool E * world E).
Implicit Types (out : list (option ptr)) (ls : list label).
Implicit Types (es : list (GoList.Element (option ptr))).

(** A run computed by [run] is a sequence of steps. *)
Lemma run_steps ks : forall s ls s',
  run ks s = Done (ls, s') -> steps s ls s'.
Proof.
  induction ks as [|[t k] ks IH]; intros [p w] ls s' Hrun; cbn in Hrun.
  - injection Hrun as <- <-. constructor.
  - destruct (perform k (p, env t (ext w) w)) as [[l s1]| | |] eqn:Hk; try discriminate.
    destruct (run ks s1) as [[ls1 s2]| | |] eqn:Hks; try discriminate.
    injection Hrun as <- <-. apply (steps_cons _ l s1); [|by apply IH].
    destruct k as [|cn|cn]; unfold perform, bind, ret in Hk.
    + destruct (ConnPool.Get _) as [[r s0]| | |] eqn:Hg; try discriminate.
      injection Hk as <- <-. by eapply step_Get.
    + destruct (ConnPool.Put _ _) as [[r s0]| | |] eqn:Hg; try discriminate.
      injection Hk as <- <-. by eapply step_Put.
    + destruct (ConnPool.Remove _ _) as [[r s0]| | |] eqn:Hg; try discriminate.
      injection Hk as <- <-. by eapply step_Remove.
Qed.

Lemma evict_first_sublist p w es : evict_first p w es `sublist_of` es.
Proof.
  induction es as [|e es IH]; cbn; [done|].
  destruct (expired p w (GoList.Value e)).
  - by apply sublist_cons.
  - by apply sublist_skip.
Qed.

Lemma after_sweep_sublist p w :
  after_sweep p w `sublist_of` GoList.elems (ConnPool.conns p).
Proof.
  unfold after_sweep. destruct (0 <? ConnPool.idleTimeout p); [|done].
  apply evict_first_sublist.
Qed.

Lemma wf_sublist {A} (l : GoList.List A) (es : list (GoList.Element A)) :
  GoList.wf l -> es `sublist_of` GoList.elems l ->
  GoList.wf {| GoList.elems := es; GoList.next_id := GoList.next_id l |}.
Proof.
  intros [Hnd Hlt] Hsub. split; cbn.
  - eapply sublist_NoDup; [exact Hnd|]. by apply fmap_sublist.
  - rewrite Forall_forall in Hlt |- *. intros e He. apply Hlt.
    eapply elem_of_sublist; eauto.
Qed.

Lemma wf_PushFront {A} (l : GoList.List A) (v : A) :
  GoList.wf l -> GoList.wf (GoList.PushFront l v).
Proof.
  intros [Hnd Hlt]. split; cbn.
  - apply NoDup_cons. split; [|done]. intros Hin.
    apply list_elem_of_fmap in Hin as (e & Hid & He).
    rewrite Forall_forall in Hlt. specialize (Hlt e He). lia.
  - apply Forall_cons. split; [cbn; lia|].
    eapply Forall_impl; [exact Hlt|]. intros e He. cbn in *. lia.
Qed.

Lemma take_out_length cn out out' :
  take_out cn out = Some out' -> length out = S (length out').
Proof.
  revert out'. induction out as [|x out IH]; intros out'; cbn; [done|].
  destruct (decide (x = cn)).
  - by intros [= ->].
  - destruct (take_out cn out) as [r|]; [|done]. intros [= <-]. cbn.
    by rewrite (IH r).
Qed.

Lemma Put_Done_inv cn s err s' :
  ConnPool.Put cn s = Done (err, s') ->
  exists (a : ptr) c, cn = Some a /\ heap s.2 !! a = Some c.
Proof.
  destruct s as [p w]. destruct cn as [a|]; [|discriminate]. intros Hrun.
  destruct (heap w !! a) as [c|] eqn:Ha; [eauto|].
  revert Hrun. exec. by rewrite Ha.
Qed.

Lemma Remove_Done_inv cn s err s' :
  ConnPool.Remove cn s = Done (err, s') ->
  cn = None \/ exists c, points_to s.2 cn = Some c.
Proof.
  destruct s as [p w]. destruct cn as [a|]; [|by left]. intros Hrun. right. cbn.
  destruct (heap w !! a) as [c|] eqn:Ha; [eauto|].
  revert Hrun. exec. by rewrite Ha.
Qed.

(** What a completed [Get] did: it handed out the front of what the sweep
    left, or found nothing left and dialled. *)
Lemma Get_Done_cases p w r s' :
  GoList.wf (ConnPool.conns p) ->
  Forall (fun cn => is_Some (points_to w cn)) (GoList.values (ConnPool.conns p)) ->
  ConnPool.Get (p, w) = Done (r, s') ->
  (exists e rest,
      e :: rest `sublist_of` GoList.elems (ConnPool.conns p)
      /\ r = (GoList.Value e, false, None)
      /\ s' = (with_elems rest p, w))
  \/ (after_sweep p w = []
      /\ (GoList.elems (ConnPool.conns p) <> []
          \/ ConnPool.size p < ConnPool.maxSize p)
      /\ ((exists rw x,
             r = (Some (length (heap w)), true, None)
             /\ s' = (ConnPool.set_size (GoInt.incr (ConnPool.size p)) (with_elems [] p),
                      dialled p (inl rw) x w))
          \/ (exists er x,
                r = (None, false, Some er)
                /\ s' = (with_elems [] p, dialled p (inr er) x w)))).
Proof.
  intros Hwf Hall Hrun.
  assert (Hgo : GoList.elems (ConnPool.conns p) <> []
                \/ ConnPool.size p < ConnPool.maxSize p).
  { destruct (GoList.elems (ConnPool.conns p)) as [|e0 es0] eqn:Hes; [|by left].
    destruct (Z.le_gt_cases (ConnPool.maxSize p) (ConnPool.size p)) as [Hfull|Hroom].
    - by rewrite (Get_blocked p _ Hes Hfull) in Hrun.
    - right. lia. }
  rewrite (Get_swept p w Hwf Hall Hgo) in Hrun.
  pose proof (after_sweep_sublist p w) as Hsub.
  destruct (after_sweep p w) as [|e rest].
  - right. split; [done|]. split; [done|].
    destruct (ConnPool.dial p (ext w)) as [[rw|er] x]; cbn [fst snd] in Hrun;
      injection Hrun as <- <-.
    + left. by exists rw, x.
    + right. by exists er, x.
  - injection Hrun as <- <-. left. by exists e, rest.
Qed.

Lemma allocated_sublist w (es es' : list (GoList.Element (option ptr))) :
  Forall (fun cn => is_Some (points_to w cn)) (GoList.Value <$> es) ->
  es' `sublist_of` es ->
  Forall (fun cn => is_Some (points_to w cn)) (GoList.Value <$> es').
Proof.
  rewrite !Forall_fmap, !Forall_forall. intros Hall Hsub e He.
  apply Hall. eapply elem_of_sublist; eauto.
Qed.

(** Objects stay where they are when the heap grows or is written. *)
Lemma allocated_mono (w w' : world E) (cns : list (option ptr)) :
  (forall a : ptr, is_Some (heap w !! a) -> is_Some (heap w' !! a)) ->
  Forall (fun cn => is_Some (points_to w cn)) cns ->
  Forall (fun cn => is_Some (points_to w' cn)) cns.
Proof.
  intros Hmono Hall. eapply Forall_impl; [exact Hall|].
  intros [a|]; cbn; [apply Hmono|done].
Qed.

Lemma Sound_fresh dial close maxSize rt wt it w :
  Sound (ConnPool.newConnPool dial close maxSize rt wt it, w).
Proof. split; [split; cbn; constructor|constructor]. Qed.

(** On a sound state [Get] hands out a connection, reports the error of
    the dial, or waits: it neither panics nor runs out of fuel. *)
Lemma Get_returns_or_blocks p w :
  Sound (p, w) ->
  (exists r s', ConnPool.Get (p, w) = Done (r, s')) \/ ConnPool.Get (p, w) = Blocked.
Proof.
  intros [Hwf Hall]. cbn [fst snd] in *.
  destruct (GoList.elems (ConnPool.conns p)) as [|e0 es0] eqn:Hes;
    [destruct (Z.le_gt_cases (ConnPool.maxSize p) (ConnPool.size p)) as [Hfull|Hroom]|].
  { right. by apply Get_blocked. }
  all: left; rewrite Get_swept; [|done|done|rewrite Hes; auto; lia].
  all: destruct (after_sweep p w) as [|e rest]; [|by eauto].
  all: destruct (ConnPool.dial p (ext w)) as [[rw|er] x]; by eauto.
Qed.

(** Every call keeps the idle list sound. *)
Lemma step_Sound s l s' : Sound s -> step s l s' -> Sound s'.
Proof.
  intros HS Hstep.
  destruct Hstep as [p w t x r s' Hrun|p w t x cn err s' Hrun|p w t x cn err s' Hrun].
  all: destruct HS as (Hwf & Hall); cbn [fst snd] in *.
  all: assert (Hall' : Forall (fun cn => is_Some (points_to (env t x w) cn))
                         (GoList.values (ConnPool.conns p))) by done.
  - apply Get_Done_cases in Hrun as
      [(e & rest & Hsub & -> & ->)
      |(_ & _ & [(rw & x' & -> & ->)|(er & x' & -> & ->)])];
      [| | |done|done].
    + assert (rest `sublist_of` GoList.elems (ConnPool.conns p)) as Hsub'
        by (etrans; [apply sublist_cons|]; done).
      split; [by apply wf_sublist|by eapply allocated_sublist].
    + split; [apply (wf_sublist _ _ Hwf), sublist_nil_l|constructor].
    + split; [apply (wf_sublist _ _ Hwf), sublist_nil_l|constructor].
  - destruct (Put_Done_inv _ _ _ _ Hrun) as (a & c & -> & Ha). cbn [snd] in Ha.
    rewrite (Put_allocated _ _ _ _ Ha) in Hrun. injection Hrun as <- <-.
    split; cbn [fst snd ConnPool.set_conns ConnPool.conns]; [by apply wf_PushFront|].
    apply (allocated_mono (env t x w)).
    { intros a' Ha'. cbn. apply lookup_lt_is_Some. rewrite length_insert.
      by apply lookup_lt_is_Some. }
    unfold GoList.values. cbn. apply Forall_cons. split; [|exact Hall].
    cbn. eauto.
  - destruct (Remove_Done_inv _ _ _ _ Hrun) as [->|[c Hc]]; cbn [snd] in *.
    + rewrite Remove_nil in Hrun. by injection Hrun as <- <-.
    + rewrite (Remove_allocated _ _ _ _ Hc) in Hrun. by injection Hrun as <- <-.
Qed.

Lemma steps_Sound ls : forall s s', Sound s -> steps s ls s' -> Sound s'.
Proof.
  induction ls as [|l ls IH]; intros s s' HS Hsteps.
  - by inversion Hsteps; subst.
  - inversion Hsteps as [|? ? s1 ? ? Hstep Hrest]; subst.
    apply (IH s1 s'); [|done]. by apply (step_Sound s l).
Qed.

(** One call made with discipline keeps the invariant. *)
Lemma step_Inv s l s' out out' n :
  Inv s out n -> n < GoInt.max_int ->
  step s l s' -> account out l = Some out' ->
  Inv s' out' (n + 1).
Proof.
  intros (HS & Hlen & Hsize) Hn Hstep Hacc.
  split; [by apply (step_Sound s l)|].
  destruct Hstep as [p w t x r s' Hrun|p w t x cn err s' Hrun|p w t x cn err s' Hrun].
  all: destruct HS as (Hwf & Hall); cbn [fst snd] in *.
  all: unfold ConnPool.Len, GoList.Len in Hlen.
  - (* Get *)
    apply Get_Done_cases in Hrun as
      [(e & rest & Hsub & -> & ->)
      |(_ & _ & [(rw & x' & -> & ->)|(er & x' & -> & ->)])];
      [| | |done|done].
    all: cbn in Hacc; injection Hacc as <-.
    all: unfold ConnPool.Len, GoList.Len; cbn [fst snd with_elems
      ConnPool.set_conns ConnPool.set_size ConnPool.conns ConnPool.size
      GoList.elems].
    + pose proof (sublist_length _ _ Hsub) as Hle. cbn [length] in *. lia.
    + rewrite incr_below_max by (unfold GoInt.min_int; lia).
      cbn [length] in *. lia.
    + cbn [length] in *. lia.
  - (* Put *)
    destruct (Put_Done_inv _ _ _ _ Hrun) as (a & c & -> & Ha). cbn [snd] in Ha.
    rewrite (Put_allocated _ _ _ _ Ha) in Hrun. injection Hrun as <- <-.
    cbn in Hacc. apply take_out_length in Hacc.
    unfold ConnPool.Len; cbn [fst snd ConnPool.set_conns ConnPool.conns
      ConnPool.size]. rewrite Len_PushFront. unfold GoList.Len. lia.
  - (* Remove *)
    cbn in Hacc. apply take_out_length in Hacc.
    assert (Hdec : GoInt.decr (ConnPool.size p) = ConnPool.size p - 1).
    { apply decr_above_min. unfold GoInt.min_int. lia. }
    destruct (Remove_Done_inv _ _ _ _ Hrun) as [->|[c Hc]]; cbn [snd] in *.
    + rewrite Remove_nil in Hrun. injection Hrun as <- <-.
      unfold ConnPool.Len, GoList.Len; cbn [fst snd ConnPool.set_size
        ConnPool.conns ConnPool.size]. rewrite Hdec. lia.
    + rewrite (Remove_allocated _ _ _ _ Hc) in Hrun. injection Hrun as <- <-.
      unfold ConnPool.Len, GoList.Len; cbn [fst snd ConnPool.set_size
        ConnPool.conns ConnPool.size]. rewrite Hdec. lia.
Qed.

Lemma steps_Inv ls : forall s s' out out' n,
  steps s ls s' -> Inv s out n ->
  checked_out out ls = Some out' ->
  n + Z.of_nat (length ls) <= GoInt.max_int ->
  Inv s' out' (n + Z.of_nat (length ls)).
Proof.
  induction ls as [|l ls IH]; intros s s' out out' n Hsteps HI Hout Hn.
  - inversion Hsteps; subst. cbn in Hout. injection Hout as <-.
    cbn. by rewrite Z.add_0_r.
  - inversion Hsteps as [|? ? s1 ? ? Hstep Hrest]; subst.
    cbn in Hout. destruct (account out l) as [out1|] eqn:Hacc; [|done].
    cbn [length] in *.
    replace (n + Z.of_nat (S (length ls))) with ((n + 1) + Z.of_nat (length ls)) by lia.
    apply (IH s1 s' out1 out' (n + 1)); [done| |done|lia].
    apply (step_Inv s l s1 out out1 n); [done|lia|done|done].
Qed.

(** C9, as the code has it: when every [Put] and every [Remove] is given a
    connection that a [Get] of this pool handed out and that was not given
    back since, the size of the idle list is within the live count after
    every call ([int] does not wrap in fewer than 2^63 calls). *)
Theorem C9_idle_within_live_count_under_discipline
    dial close maxSize rt wt it (w0 : world E) ls p w :
  steps (ConnPool.newConnPool dial close maxSize rt wt it, w0) ls (p, w) ->
  disciplined ls ->
  Z.of_nat (length ls) <= GoInt.max_int ->
  ConnPool.Len p <= ConnPool.size p.
Proof.
  intros Hsteps [out Hout] Hn.
  destruct (steps_Inv ls _ _ [] out 0 Hsteps) as (_ & Hlen & _);
    [|exact Hout|lia|cbn [fst] in Hlen; lia].
  split; [apply Sound_fresh|]. unfold ConnPool.Len, GoList.Len. cbn. lia.
Qed.

(** Without an idle timeout nothing is evicted, and a call keeps the live
    count within [maxSize] whatever the caller passes. *)
Lemma step_bound s l s' n :
  ConnPool.idleTimeout s.1 <= 0 ->
  ConnPool.maxSize s.1 <= GoInt.max_int ->
  Bounded s n -> n < GoInt.max_int ->
  step s l s' ->
  Bounded s' (n + 1)
  /\ ConnPool.idleTimeout s'.1 = ConnPool.idleTimeout s.1
  /\ ConnPool.maxSize s'.1 = ConnPool.maxSize s.1.
Proof.
  intros Hit Hmax (HS & Hlo & Hhi) Hn Hstep.
  assert (HS' : Sound s') by (by apply (step_Sound s l)).
  cut (- (n + 1) <= ConnPool.size s'.1
       /\ ConnPool.size s'.1 <= ConnPool.maxSize s'.1
       /\ ConnPool.idleTimeout s'.1 = ConnPool.idleTimeout s.1
       /\ ConnPool.maxSize s'.1 = ConnPool.maxSize s.1).
  { intros (? & ? & ? & ?). by split_and!. }
  clear HS'.
  destruct Hstep as [p w t x r s' Hrun|p w t x cn err s' Hrun|p w t x cn err s' Hrun].
  all: destruct HS as (Hwf & Hall); cbn [fst snd] in *.
  - (* Get *)
    apply Get_Done_cases in Hrun as
      [(e & rest & Hsub & -> & ->)
      |(Hnone & Hgo & [(rw & x' & -> & ->)|(er & x' & -> & ->)])];
      [| | |done|done].
    all: cbn [fst snd with_elems ConnPool.set_conns ConnPool.set_size
      ConnPool.conns ConnPool.size ConnPool.maxSize ConnPool.idleTimeout].
    + split_and!; [lia|lia|done|done].
    + assert (Hroom : ConnPool.size p < ConnPool.maxSize p).
      { unfold after_sweep in Hnone.
        destruct (Z.ltb_spec 0 (ConnPool.idleTimeout p)); [lia|].
        destruct Hgo; [done|lia]. }
      rewrite incr_below_max by (unfold GoInt.min_int, GoInt.max_int in *; lia).
      split_and!; [lia|lia|done|done].
    + split_and!; [lia|lia|done|done].
  - (* Put *)
    destruct (Put_Done_inv _ _ _ _ Hrun) as (a & c & -> & Ha). cbn [snd] in Ha.
    rewrite (Put_allocated _ _ _ _ Ha) in Hrun. injection Hrun as <- <-.
    cbn [fst snd ConnPool.set_conns ConnPool.conns ConnPool.size
      ConnPool.maxSize ConnPool.idleTimeout].
    split_and!; [lia|lia|done|done].
  - (* Remove *)
    assert (Hdec : GoInt.decr (ConnPool.size p) = ConnPool.size p - 1).
    { apply decr_above_min. unfold GoInt.min_int, GoInt.max_int in *. lia. }
    destruct (Remove_Done_inv _ _ _ _ Hrun) as [->|[c Hc]]; cbn [snd] in *.
    + rewrite Remove_nil in Hrun. injection Hrun as <- <-.
      cbn [fst snd ConnPool.set_size ConnPool.conns ConnPool.size
        ConnPool.maxSize ConnPool.idleTimeout]. rewrite Hdec.
      split_and!; [lia|lia|done|done].
    + rewrite (Remove_allocated _ _ _ _ Hc) in Hrun. injection Hrun as <- <-.
      cbn [fst snd ConnPool.set_size ConnPool.conns ConnPool.size
        ConnPool.maxSize ConnPool.idleTimeout]. rewrite Hdec.
      split_and!; [lia|lia|done|done].
Qed.

Lemma steps_bound ls : forall s s' n,
  ConnPool.idleTimeout s.1 <= 0 ->
  ConnPool.maxSize s.1 <= GoInt.max_int ->
  steps s ls s' -> Bounded s n ->
  n + Z.of_nat (length ls) <= GoInt.max_int ->
  Bounded s' (n + Z.of_nat (length ls)).
Proof.
  induction ls as [|l ls IH]; intros s s' n Hit Hmax Hsteps HB Hn.
  - inversion Hsteps; subst. cbn. by rewrite Z.add_0_r.
  - inversion Hsteps as [|? ? s1 ? ? Hstep Hrest]; subst.
    cbn [length] in *.
    destruct (step_bound s l s1 n Hit Hmax HB) as (HB1 & Hit1 & Hmax1); [lia|done|].
    replace (n + Z.of_nat (S (length ls))) with ((n + 1) + Z.of_nat (length ls)) by lia.
    apply (IH s1 s' (n + 1)); [lia|lia|done|done|lia].
Qed.

(** From a new pool with [idleTimeout <= 0], the live count is within
    [maxSize] after every call. *)
Lemma live_count_within_maxSize_without_idle_timeout
    dial close maxSize rt wt it (w0 : world E) ls p w :
  steps (ConnPool.newConnPool dial close maxSize rt wt it, w0) ls (p, w) ->
  it <= 0 -> 0 <= maxSize <= GoInt.max_int ->
  Z.of_nat (length ls) <= GoInt.max_int ->
  ConnPool.size p <= ConnPool.maxSize p.
Proof.
  intros Hsteps Hit Hmax Hn.
  destruct (steps_bound ls (ConnPool.newConnPool dial close maxSize rt wt it, w0)
              (p, w) 0 Hit (proj2 Hmax) Hsteps) as (_ & _ & Hhi).
  - split; [apply Sound_fresh|]. cbn. lia.
  - lia.
  - exact Hhi.
Qed.

End RunFacts.

(** ** The pool at work *)

(** C1, evaluated where the code leaves the bound.  With [maxSize = 1] and
    [idleTimeout = 10]: [Get] dials A, A is put back, and the [Get] at time
    100 passes the capacity test because the idle list is not empty, its
    sweep evicts A without giving back A's slot, and it dials B: the live
    count is 2. *)
Theorem C1_live_count_exceeds_maxSize_after_eviction :
  exists p w,
    run Scenario.evict_then_dial (Scenario.pool_1, Scenario.world_0)
    = Done ([LGet (Some 0%nat, true, None); LPut (Some 0%nat);
             LGet (Some 1%nat, true, None)], (p, w))
    /\ disciplined [LGet (Some 0%nat, true, None); LPut (Some 0%nat);
                    LGet (Some 1%nat, true, None)]
    /\ ConnPool.maxSize p = 1
    /\ ConnPool.size p = 2
    /\ trace w = [EvDial (inl 0%nat); EvSignal; EvDial (inl 1%nat)].
Proof.
  eexists _, _. split; [vm_compute; reflexivity|].
  split; [eexists; vm_compute; reflexivity|]. done.
Qed.

(** C2, evaluated where the sweep stops short.  With [idleTimeout = 10],
    A put back at time 0 and B at time 1, both are expired at time 100.
    The sweep drops B, the entry at the front, and ends there, because
    [Next] of a removed element is nil: A stays in the idle list, and the
    [Get] hands out A. *)
Theorem C2_sweep_stops_after_first_eviction :
  exists ls p w,
    run Scenario.two_idle (Scenario.pool_2, Scenario.world_0) = Done (ls, (p, w))
    /\ disciplined ls
    /\ GoList.values (ConnPool.conns p) = [Some 1%nat; Some 0%nat]
    /\ expired p (env 100 (ext w) w) (Some 1%nat) = true
    /\ expired p (env 100 (ext w) w) (Some 0%nat) = true
    /\ (exists p',
          ConnPool.sweep (p, env 100 (ext w) w) = Done (tt, (p', env 100 (ext w) w))
          /\ GoList.values (ConnPool.conns p') = [Some 0%nat]
          /\ expired p' (env 100 (ext w) w) (Some 0%nat) = true)
    /\ (exists p',
          ConnPool.Get (p, env 100 (ext w) w)
          = Done ((Some 0%nat, false, None), (p', env 100 (ext w) w))).
Proof.
  eexists _, _, _. split; [vm_compute; reflexivity|].
  split_and!; [eexists; vm_compute; reflexivity|done|done|done| |].
  - eexists. split; [vm_compute; reflexivity|]. done.
  - eexists. vm_compute. reflexivity.
Qed.

(** C9 without the discipline of the callers does not hold: [Put] takes
    any connection, so a connection put back twice is twice in the idle
    list, and [Len()] is 2 with a live count of 1. *)
Lemma C9_counterexample :
  ~ (forall ls p w,
       steps (Scenario.pool_1, Scenario.world_0) ls (p, w) ->
       ConnPool.Len p <= ConnPool.size p).
Proof.
  intros Hall.
  assert (exists ls p w,
             run Scenario.double_put (Scenario.pool_1, Scenario.world_0)
             = Done (ls, (p, w))
             /\ ConnPool.Len p = 2 /\ ConnPool.size p = 1)
    as (ls & p & w & Hrun & Hlen & Hsize).
  { eexists _, _, _. split; [vm_compute; reflexivity|]. done. }
  apply run_steps, Hall in Hrun. lia.
Qed.

Lemma C9_witness :
  exists ls p w,
    run Scenario.reuse (Scenario.pool_0, Scenario.world_0) = Done (ls, (p, w))
    /\ ConnPool.Len p <= ConnPool.size p.
Proof.
  eexists _, _, _. split; [vm_compute; reflexivity|].
  eapply (C9_idle_within_live_count_under_discipline
            Scenario.dial_ok None 2 0 0 0 Scenario.world_0).
  - apply (run_steps Scenario.reuse). vm_compute. reflexivity.
  - eexists. vm_compute. reflexivity.
  - vm_compute. discriminate.
Defined.

Lemma C7_witness :
  exists p1 w1 p2,
    ConnPool.Put (Some 0%nat) (Scenario.pool_1, Scenario.world_1) = Done (None, (p1, w1))
    /\ ConnPool.Get (p1, env 12 0%nat w1)
       = Done ((Some 0%nat, false, None), (p2, env 12 0%nat w1)).
Proof.
  destruct (C7_Put_then_Get_reuses_connection
              Scenario.pool_1 Scenario.world_1 0%nat _ 12 0%nat
              eq_refl eq_refl)
    as (p1 & w1 & HPut & _ & _ & p2 & HGet & _).
  - intros _. vm_compute. discriminate.
  - exists p1, w1, p2. done.
Defined.

Lemma C3_witness :
  exists p' w',
    ConnPool.Close
      ((Scenario.after Scenario.three_idle (Scenario.pool_3, Scenario.world_0)).1,
       (Scenario.after Scenario.three_idle (Scenario.pool_3, Scenario.world_0)).2)
    = Done (Some "broken pipe"%string, (p', w'))
    /\ p' = (Scenario.after Scenario.three_idle (Scenario.pool_3, Scenario.world_0)).1
    /\ w' = with_ext 3%nat
              [EvCloseHook 2 None; EvCloseHook 1 (Some "broken pipe"%string)]
              (Scenario.after Scenario.three_idle (Scenario.pool_3, Scenario.world_0)).2.
Proof.
  destruct (C3_Close_stops_at_first_failure
              (Scenario.after Scenario.three_idle (Scenario.pool_3, Scenario.world_0)).1
              (Scenario.after Scenario.three_idle (Scenario.pool_3, Scenario.world_0)).2
              (reverse (heap (Scenario.after Scenario.three_idle
                                (Scenario.pool_3, Scenario.world_0)).2)))
    as (err & p' & x & evs & HClose & Hfun & Hcase).
  - split; [refine (bool_decide_unpack _ _); vm_compute; exact I|].
    vm_compute. repeat constructor.
  - vm_compute. repeat constructor.
  - vm_compute in Hfun. injection Hfun as -> -> ->.
    destruct Hcase as [_ ->]. eexists _, _. split; [exact HClose|].
    split; reflexivity.
Defined.

Lemma C5_witness :
  SingleConnPool.Put (Some 1%nat)
    (SingleConnPool.newSingleConnPool Scenario.pool_0 (Some 0%nat) true, Scenario.world_1)
  = Panic "p.cn != cn"
  /\ SingleConnPool.Remove (Some 0%nat)
       (SingleConnPool.newSingleConnPool Scenario.pool_0 (Some 0%nat) true, Scenario.world_1)
     = Done (None, (SingleConnPool.newSingleConnPool Scenario.pool_0 None true,
                    Scenario.world_1)).
Proof.
  destruct (C5_Put_Remove_foreign_connection_panics
              (SingleConnPool.newSingleConnPool Scenario.pool_0 (Some 0%nat) true)
              Scenario.world_1 (Some 1%nat)) as [Hforeign _].
  destruct (C5_Put_Remove_foreign_connection_panics
              (SingleConnPool.newSingleConnPool Scenario.pool_0 (Some 0%nat) true)
              Scenario.world_1 (Some 0%nat)) as [_ Hheld].
  split.
  - apply Hforeign. discriminate.
  - apply Hheld. reflexivity.
Defined.

(** The pool under the adapter panics in all its methods, and [Get] still
    answers the held connection. *)
Lemma C8_witness :
  @SingleConnPool.Get nat unit Scenario.dead_pool
    (SingleConnPool.newSingleConnPool tt (Some 0%nat) false, Scenario.world_1)
  = Done ((Some 0%nat, false, None),
          (SingleConnPool.newSingleConnPool tt (Some 0%nat) false, Scenario.world_1)).
Proof.
  apply (@C8_Get_returns_held_connection nat unit Scenario.dead_pool
           (SingleConnPool.newSingleConnPool tt (Some 0%nat) false)
           Scenario.world_1 0%nat eq_refl).
Defined.

Lemma C6_witness :
  (exists q w',
      SingleConnPool.Close
        (SingleConnPool.newSingleConnPool Scenario.pool_0 (Some 0%nat) true,
         Scenario.world_1)
      = Done (None, (SingleConnPool.newSingleConnPool q None true, w'))
      /\ ConnPool.Len q = 1)
  /\ (exists q w',
      SingleConnPool.Close
        (SingleConnPool.newSingleConnPool Scenario.pool_fail (Some 0%nat) false,
         Scenario.world_1)
      = Done (Some "broken pipe"%string,
              (SingleConnPool.newSingleConnPool q None false, w'))
      /\ ConnPool.size q = -1).
Proof.
  split.
  - destruct (C6_Close_releases_held_connection
                (SingleConnPool.newSingleConnPool Scenario.pool_0 (Some 0%nat) true)
                Scenario.world_1) as [_ Hheld].
    destruct (Hheld 0%nat _ eq_refl eq_refl) as (err & q & w' & HClose & Hput & _).
    destruct (Hput eq_refl) as (HPut & HLen & _).
    assert (err = None) as -> by (revert HPut; vm_compute; congruence).
    exists q, w'. split; [exact HClose|]. rewrite HLen. reflexivity.
  - destruct (C6_Close_releases_held_connection
                (SingleConnPool.newSingleConnPool Scenario.pool_fail (Some 0%nat) false)
                Scenario.world_1) as [_ Hheld].
    destruct (Hheld 0%nat _ eq_refl eq_refl) as (err & q & w' & HClose & _ & Hrem).
    destruct (Hrem eq_refl) as (HRemove & Hsize & _).
    assert (err = Some "broken pipe"%string) as ->
      by (revert HRemove; vm_compute; congruence).
    exists q, w'. split; [exact HClose|]. rewrite Hsize. reflexivity.
Defined.

(** * Further properties of the pool *)

Section MoreGetFacts.
Context {E : Type}.
Implicit Types (p : ConnPool.connPool E) (w : world E) (c : Conn.conn E).
Implicit Types (e : GoList.Element (option ptr)).
Implicit Types (es rest : list (GoList.Element (option ptr))).

Lemma Len_0_elems p : ConnPool.Len p = 0 <-> GoList.elems (ConnPool.conns p) = [].
Proof.
  unfold ConnPool.Len, GoList.Len.
  destruct (GoList.elems (ConnPool.conns p)); cbn; split; (done || lia).
Qed.

(** [Get] waits exactly when the idle list is empty and the live count has
    reached [maxSize]; in every other sound state it returns. *)
Theorem Get_waits_iff_exhausted p w :
  Sound (p, w) ->
  (ConnPool.Get (p, w) = Blocked
   <-> ConnPool.Len p = 0 /\ ConnPool.maxSize p <= ConnPool.size p)
  /\ (ConnPool.Get (p, w) <> Blocked ->
      exists r s', ConnPool.Get (p, w) = Done (r, s')).
Proof.
  intros HS. split; [split|].
  - intros Hb. destruct (decide (ConnPool.Len p = 0)) as [Hlen|Hlen];
      [destruct (Z.le_gt_cases (ConnPool.maxSize p) (ConnPool.size p)) as [|Hroom];
       [done|]|].
    all: destruct HS as [Hwf Hall]; cbn [fst snd] in *.
    all: rewrite Get_swept in Hb; [|done|done|].
    all: try (destruct (after_sweep p w); [|done]).
    all: try (by destruct (ConnPool.dial p (ext w)) as [[rw|er] x]).
    + right. lia.
    + left. by rewrite <- Len_0_elems.
  - intros [Hlen Hfull]. apply Get_blocked; [by apply Len_0_elems|done].
  - intros Hnb. destruct (Get_returns_or_blocks p w HS); done.
Qed.

(** A dial that fails: [Get] returns the error of the dial hook as it is,
    with no connection; the live count is as before, no [conn] was made,
    and nobody was signalled.  (The entry that the sweep may have evicted
    just before is gone all the same.) *)
Theorem Get_returns_dial_error p w (err : error) (x : E) :
  Sound (p, w) ->
  ConnPool.Len p <> 0 \/ ConnPool.size p < ConnPool.maxSize p ->
  after_sweep p w = [] ->
  ConnPool.dial p (ext w) = (inr err, x) ->
  exists p' w',
    ConnPool.Get (p, w) = Done ((None, false, Some err), (p', w'))
    /\ ConnPool.size p' = ConnPool.size p
    /\ ConnPool.Len p' = 0
    /\ heap w' = heap w
    /\ ext w' = x
    /\ trace w' = trace w ++ [EvDial (inr err)].
Proof.
  intros [Hwf Hall] Hgo Hnone Hdial. cbn [fst snd] in *.
  eexists _, _. rewrite Get_swept; [|done|done|].
  - rewrite Hnone, Hdial. cbn [fst snd]. split; [reflexivity|]. done.
  - destruct Hgo as [Hlen|]; [left|by right]. by rewrite <- Len_0_elems.
Qed.

(** A dial that succeeds: [Get] answers a connection that is new, at an
    address no connection had before; the object wraps the dialled
    transport with the timeouts of the pool and the zero [UsedAt]; the
    objects that existed are untouched and the live count is
    incremented. *)
Theorem Get_wraps_dialled_transport p w (rw : netConn E) (x : E) :
  Sound (p, w) ->
  ConnPool.Len p <> 0 \/ ConnPool.size p < ConnPool.maxSize p ->
  after_sweep p w = [] ->
  ConnPool.dial p (ext w) = (inl rw, x) ->
  exists cn p' w',
    ConnPool.Get (p, w) = Done ((cn, true, None), (p', w'))
    /\ points_to w cn = None
    /\ points_to w' cn = Some (new_conn_of p rw)
    /\ (forall (a : ptr) c, heap w !! a = Some c -> heap w' !! a = Some c)
    /\ ConnPool.size p' = GoInt.incr (ConnPool.size p)
    /\ ConnPool.Len p' = 0
    /\ trace w' = trace w ++ [EvDial (inl (fd rw))].
Proof.
  intros [Hwf Hall] Hgo Hnone Hdial. cbn [fst snd] in *.
  eexists _, _, _. rewrite Get_swept; [|done|done|].
  - rewrite Hnone, Hdial. cbn [fst snd]. split; [reflexivity|].
    split_and!; try done; cbn.
    + apply lookup_ge_None. lia.
    + rewrite lookup_app_r by lia. by rewrite Nat.sub_diag.
    + intros a c Ha. by apply lookup_app_l_Some.
  - destruct Hgo as [Hlen|]; [left|by right]. by rewrite <- Len_0_elems.
Qed.

(** The sweep of [Get] only forgets: it takes at most one entry out of the
    idle list and only an expired one, keeps the others in their order,
    closes no transport, signals nobody and leaves the live count as it
    is. *)
Theorem sweep_only_forgets p w :
  Sound (p, w) ->
  exists p',
    ConnPool.sweep (p, w) = Done (tt, (p', w))
    /\ ConnPool.size p' = ConnPool.size p
    /\ GoList.elems (ConnPool.conns p') `sublist_of` GoList.elems (ConnPool.conns p)
    /\ (length (GoList.elems (ConnPool.conns p))
        <= S (length (GoList.elems (ConnPool.conns p'))))%nat
    /\ (forall e, e ∈ GoList.elems (ConnPool.conns p) ->
                  expired p w (GoList.Value e) = false ->
                  e ∈ GoList.elems (ConnPool.conns p')).
Proof.
  intros [Hwf Hall]. cbn [fst snd] in *. eexists. split; [by apply sweep_spec|].
  cbn [with_elems ConnPool.set_conns ConnPool.size ConnPool.conns GoList.elems].
  split_and!; [done|apply evict_first_sublist| |intros e; apply evict_first_keeps].
  induction (GoList.elems (ConnPool.conns p)) as [|e es IH]; cbn; [lia|].
  destruct (expired p w (GoList.Value e)); cbn; lia.
Qed.

End MoreGetFacts.

Section SaturationFacts.
Context {E : Type}.
Implicit Types (p : ConnPool.connPool E) (w : world E) (c : Conn.conn E).

(** With nothing idle and [n] free slots, [n] calls of [Get] dial [n]
    connections, at the next [n] addresses. *)
Lemma Gets_dial (n : nat) : forall p w,
  always_connects (ConnPool.dial p) ->
  GoList.elems (ConnPool.conns p) = [] ->
  GoInt.min_int <= ConnPool.size p ->
  ConnPool.size p + Z.of_nat n <= ConnPool.maxSize p ->
  ConnPool.maxSize p <= GoInt.max_int ->
  exists rs p' w',
    Gets n (p, w) = Done (rs, (p', w'))
    /\ rs = (fun a : nat => (Some a, true, None)) <$> seq (length (heap w)) n
    /\ ConnPool.size p' = ConnPool.size p + Z.of_nat n
    /\ ConnPool.maxSize p' = ConnPool.maxSize p
    /\ GoList.elems (ConnPool.conns p') = [].
Proof.
  induction n as [|n IH]; intros p w Hdial Hes Hmin Hroom Hmax.
  - exists [], p, w. cbn. split_and!; try done. lia.
  - destruct (Hdial (ext w)) as (rw & x & Hrw).
    assert (Hget : ConnPool.Get (p, w)
                   = Done ((Some (length (heap w)), true, None),
                           (ConnPool.set_size (GoInt.incr (ConnPool.size p)) (with_elems [] p),
                            dialled p (inl rw) x w))).
    { rewrite Get_swept.
      - assert (after_sweep p w = []) as ->.
        { unfold after_sweep. rewrite Hes. by destruct (0 <? ConnPool.idleTimeout p). }
        by rewrite Hrw.
      - split; rewrite Hes; cbn; constructor.
      - unfold GoList.values. rewrite Hes. constructor.
      - right. lia. }
    destruct (IH (ConnPool.set_size (GoInt.incr (ConnPool.size p)) (with_elems [] p))
                (dialled p (inl rw) x w))
      as (rs & p' & w' & Hrun & Hrs & Hsize & Hmax' & Hes'); cbn [ConnPool.set_size
        with_elems ConnPool.set_conns ConnPool.dial ConnPool.conns ConnPool.size
        ConnPool.maxSize GoList.elems]; try done.
    all: try (rewrite incr_below_max by lia; lia).
    exists ((Some (length (heap w)), true, None) :: rs), p', w'.
    cbn [Gets]. unfold bind at 1. rewrite Hget. unfold bind at 1. rewrite Hrun.
    split; [reflexivity|]. split_and!; try done.
    + rewrite Hrs. cbn. rewrite length_app. cbn.
      by rewrite Nat.add_1_r.
    + rewrite Hsize. cbn [ConnPool.set_size ConnPool.size].
      rewrite incr_below_max by lia. lia.
Qed.

(** Saturation.  On a new pool with [maxSize = N] and a dial hook that
    connects, [N] calls of [Get] in a row all dial: they answer [N] new
    connections at [N] distinct addresses, and the live count is [N].  The
    next [Get] waits, whenever it is made. *)
Theorem Get_dials_up_to_maxSize_then_waits
    dial close (N : nat) rt wt it (w0 : world E) :
  always_connects dial ->
  Z.of_nat N <= GoInt.max_int ->
  exists rs p w,
    Gets N (ConnPool.newConnPool dial close (Z.of_nat N) rt wt it, w0)
    = Done (rs, (p, w))
    /\ rs = (fun a : nat => (Some a, true, None)) <$> seq (length (heap w0)) N
    /\ ConnPool.size p = Z.of_nat N
    /\ ConnPool.Len p = 0
    /\ forall t x, ConnPool.Get (p, env t x w) = Blocked.
Proof.
  intros Hdial HN.
  destruct (Gets_dial N (ConnPool.newConnPool dial close (Z.of_nat N) rt wt it) w0)
    as (rs & p & w & Hrun & Hrs & Hsize & Hmax & Hes);
    [done|done|cbn; unfold GoInt.min_int; lia|cbn; lia|done|].
  exists rs, p, w. cbn in Hsize, Hmax. split_and!; try done.
  - by apply Len_0_elems.
  - intros t x. apply Get_blocked; [done|lia].
Qed.

End SaturationFacts.

Section RoundTripFacts.
Context {E : Type}.
Implicit Types (p : ConnPool.connPool E) (w : world E) (c : Conn.conn E).
Implicit Types (es : list (GoList.Element (option ptr))).

Lemma evict_first_set_conns l p w es :
  evict_first (ConnPool.set_conns l p) w es = evict_first p w es.
Proof. induction es as [|e es IH]; cbn; [done|]. by rewrite IH. Qed.

(** The idle list is a stack.  On any sound pool, [Put(A)] and then [Get()]
    at a time when [A] is not expired give back [A], not new and without
    dialling; the live count is as before the [Put], and the idle list is
    the one before the [Put] as the sweep of this [Get] leaves it: exactly
    the one before the [Put] when there is no idle timeout. *)
Theorem Put_then_Get_is_a_round_trip p w (a : ptr) c (t : Time) (x : E) :
  Sound (p, w) ->
  heap w !! a = Some c ->
  (0 < ConnPool.idleTimeout p -> Sub t (now w) <= ConnPool.idleTimeout p) ->
  exists p1 w1 p2,
    ConnPool.Put (Some a) (p, w) = Done (None, (p1, w1))
    /\ ConnPool.Get (p1, env t x w1)
       = Done ((Some a, false, None), (p2, env t x w1))
    /\ ConnPool.size p2 = ConnPool.size p
    /\ GoList.elems (ConnPool.conns p2) = after_sweep p (env t x w1)
    /\ (ConnPool.idleTimeout p <= 0 ->
        GoList.elems (ConnPool.conns p2) = GoList.elems (ConnPool.conns p)).
Proof.
  intros HS Ha Hfresh. pose proof (Put_allocated p w a c Ha) as HPut.
  assert (HS1 : Sound (ConnPool.set_conns (GoList.PushFront (ConnPool.conns p) (Some a)) p,
                       env t x (stamped a c w))).
  { change (Sound (ConnPool.set_conns (GoList.PushFront (ConnPool.conns p) (Some a)) p,
                   stamped a c w)).
    apply (step_Sound (p, w) (LPut (Some a))); [done|].
    apply (step_Put p w (now w) (ext w) (Some a) None).
    replace (env (now w) (ext w) w) with w by (by destruct w).
    rewrite HPut. reflexivity. }
  assert (Hlook : heap (env t x (stamped a c w)) !! a
                  = Some (Conn.set_UsedAt (now w) c)).
  { cbn. apply list_lookup_insert_eq. by apply lookup_lt_Some in Ha. }
  eexists _, _, _. split; [exact HPut|].
  destruct HS1 as [Hwf1 Hall1]. cbn [fst snd] in *.
  rewrite Get_swept; [|done|done|by left].
  assert (Hsw : after_sweep
                  (ConnPool.set_conns (GoList.PushFront (ConnPool.conns p) (Some a)) p)
                  (env t x (stamped a c w))
                = {| GoList.id := GoList.next_id (ConnPool.conns p);
                     GoList.Value := Some a |}
                  :: after_sweep p (env t x (stamped a c w))).
  { unfold after_sweep. cbn [ConnPool.set_conns ConnPool.conns ConnPool.idleTimeout
      GoList.PushFront GoList.elems].
    destruct (Z.ltb_spec 0 (ConnPool.idleTimeout p)) as [Hpos|]; [|done].
    cbn [evict_first GoList.Value]. unfold expired at 1, idle_time. cbn [points_to].
    rewrite Hlook. cbn [Conn.set_UsedAt Conn.UsedAt ConnPool.set_conns
      ConnPool.idleTimeout env now].
    specialize (Hfresh Hpos).
    destruct (Z.ltb_spec (ConnPool.idleTimeout p) (Sub t (now w))); [lia|].
    by rewrite evict_first_set_conns. }
  rewrite Hsw. cbn [GoList.Value]. split; [reflexivity|].
  cbn [with_elems ConnPool.set_conns ConnPool.conns ConnPool.size GoList.elems].
  split_and!; [done|done|].
  intros Hoff. unfold after_sweep.
  by destruct (Z.ltb_spec 0 (ConnPool.idleTimeout p)); [lia|].
Qed.

End RoundTripFacts.

Section AccountingFacts.
Context {E : Type}.
Implicit Types (p : ConnPool.connPool E) (w : world E) (c : Conn.conn E).
Implicit Types (s : ConnPool.connPool E * world E).
Implicit Types (out : list (option ptr)) (ls : list label).

(** What a completed [Get] did, from what its sweep left. *)
Lemma Get_Done_swept p w r s' :
  Sound (p, w) ->
  ConnPool.Get (p, w) = Done (r, s') ->
  (exists e rest,
      after_sweep p w = e :: rest
      /\ r = (GoList.Value e, false, None)
      /\ s' = (with_elems rest p, w))
  \/ (after_sweep p w = []
      /\ ((exists rw x,
             r = (Some (length (heap w)), true, None)
             /\ s' = (ConnPool.set_size (GoInt.incr (ConnPool.size p)) (with_elems [] p),
                      dialled p (inl rw) x w))
          \/ (exists er x,
                r = (None, false, Some er)
                /\ s' = (with_elems [] p, dialled p (inr er) x w)))).
Proof.
  intros [Hwf Hall] Hrun. cbn [fst snd] in *.
  assert (Hgo : GoList.elems (ConnPool.conns p) <> []
                \/ ConnPool.size p < ConnPool.maxSize p).
  { destruct (GoList.elems (ConnPool.conns p)) as [|e0 es0] eqn:Hes; [|by left].
    destruct (Z.le_gt_cases (ConnPool.maxSize p) (ConnPool.size p)) as [Hfull|Hroom].
    - by rewrite (Get_blocked p _ Hes Hfull) in Hrun.
    - right. lia. }
  rewrite (Get_swept p w Hwf Hall Hgo) in Hrun.
  destruct (after_sweep p w) as [|e rest].
  - right. split; [done|].
    destruct (ConnPool.dial p (ext w)) as [[rw|er] x]; cbn [fst snd] in Hrun;
      injection Hrun as <- <-.
    + left. by exists rw, x.
    + right. by exists er, x.
  - injection Hrun as <- <-. left. by exists e, rest.
Qed.

(** Without idle timeout, one call made with discipline keeps the live
    count equal to the number of the idle and the handed-out
    connections. *)
Lemma step_Exact s l s' out out' n :
  ConnPool.idleTimeout s.1 <= 0 ->
  Exact s out n -> n < GoInt.max_int ->
  step s l s' -> account out l = Some out' ->
  Exact s' out' (n + 1)
  /\ ConnPool.idleTimeout s'.1 = ConnPool.idleTimeout s.1.
Proof.
  intros Hit (HS & Hlen & Hsize) Hn Hstep Hacc.
  assert (HS' : Sound s') by (by apply (step_Sound s l)).
  cut (ConnPool.Len s'.1 + Z.of_nat (length out') = ConnPool.size s'.1
       /\ ConnPool.size s'.1 <= n + 1
       /\ ConnPool.idleTimeout s'.1 = ConnPool.idleTimeout s.1).
  { intros (? & ? & ?). by split_and!. }
  clear HS'.
  destruct Hstep as [p w t x r s' Hrun|p w t x cn err s' Hrun|p w t x cn err s' Hrun].
  all: cbn [fst snd] in *.
  all: unfold ConnPool.Len, GoList.Len in Hlen.
  - (* Get *)
    assert (Hsw : after_sweep p (env t x w) = GoList.elems (ConnPool.conns p)).
    { unfold after_sweep. by destruct (Z.ltb_spec 0 (ConnPool.idleTimeout p)); [lia|]. }
    apply Get_Done_swept in Hrun as
      [(e & rest & Hes & -> & ->)
      |(Hes & [(rw & x' & -> & ->)|(er & x' & -> & ->)])]; [| | |done].
    all: rewrite Hsw in Hes; rewrite Hes in Hlen.
    all: cbn in Hacc; injection Hacc as <-.
    all: unfold ConnPool.Len, GoList.Len; cbn [fst snd with_elems
      ConnPool.set_conns ConnPool.set_size ConnPool.conns ConnPool.size
      ConnPool.idleTimeout GoList.elems].
    + cbn [length] in *. split_and!; [lia|lia|done].
    + rewrite incr_below_max by (unfold GoInt.min_int; cbn [length] in *; lia).
      cbn [length] in *. split_and!; [lia|lia|done].
    + cbn [length] in *. split_and!; [lia|lia|done].
  - (* Put *)
    destruct (Put_Done_inv _ _ _ _ Hrun) as (a & c & -> & Ha). cbn [snd] in Ha.
    rewrite (Put_allocated _ _ _ _ Ha) in Hrun. injection Hrun as <- <-.
    cbn in Hacc. apply take_out_length in Hacc.
    unfold ConnPool.Len; cbn [fst snd ConnPool.set_conns ConnPool.conns
      ConnPool.size ConnPool.idleTimeout]. rewrite Len_PushFront. unfold GoList.Len.
    split_and!; [lia|lia|done].
  - (* Remove *)
    cbn in Hacc. apply take_out_length in Hacc.
    assert (Hdec : GoInt.decr (ConnPool.size p) = ConnPool.size p - 1).
    { apply decr_above_min. unfold GoInt.min_int. lia. }
    destruct (Remove_Done_inv _ _ _ _ Hrun) as [->|[c Hc]]; cbn [snd] in *.
    + rewrite Remove_nil in Hrun. injection Hrun as <- <-.
      unfold ConnPool.Len, GoList.Len; cbn [fst snd ConnPool.set_size
        ConnPool.conns ConnPool.size ConnPool.idleTimeout]. rewrite Hdec.
      split_and!; [lia|lia|done].
    + rewrite (Remove_allocated _ _ _ _ Hc) in Hrun. injection Hrun as <- <-.
      unfold ConnPool.Len, GoList.Len; cbn [fst snd ConnPool.set_size
        ConnPool.conns ConnPool.size ConnPool.idleTimeout]. rewrite Hdec.
      split_and!; [lia|lia|done].
Qed.

Lemma steps_Exact ls : forall s s' out out' n,
  ConnPool.idleTimeout s.1 <= 0 ->
  steps s ls s' -> Exact s out n ->
  checked_out out ls = Some out' ->
  n + Z.of_nat (length ls) <= GoInt.max_int ->
  Exact s' out' (n + Z.of_nat (length ls)).
Proof.
  induction ls as [|l ls IH]; intros s s' out out' n Hit Hsteps HI Hout Hn.
  - inversion Hsteps; subst. cbn in Hout. injection Hout as <-.
    cbn. by rewrite Z.add_0_r.
  - inversion Hsteps as [|? ? s1 ? ? Hstep Hrest]; subst.
    cbn in Hout. destruct (account out l) as [out1|] eqn:Hacc; [|done].
    cbn [length] in *.
    destruct (step_Exact s l s1 out out1 n Hit HI) as [HI1 Hit1]; [lia|done|done|].
    replace (n + Z.of_nat (S (length ls))) with ((n + 1) + Z.of_nat (length ls)) by lia.
    apply (IH s1 s' out1 out' (n + 1)); [lia|done|done|done|lia].
Qed.

(** No call changes the configuration of the pool. *)
Lemma step_config s l s' :
  Sound s -> step s l s' ->
  ConnPool.maxSize s'.1 = ConnPool.maxSize s.1
  /\ ConnPool.idleTimeout s'.1 = ConnPool.idleTimeout s.1.
Proof.
  intros HS Hstep.
  destruct Hstep as [p w t x r s' Hrun|p w t x cn err s' Hrun|p w t x cn err s' Hrun].
  - apply Get_Done_swept in Hrun as
      [(e & rest & _ & -> & ->)|(_ & [(rw & x' & -> & ->)|(er & x' & -> & ->)])];
      done.
  - destruct (Put_Done_inv _ _ _ _ Hrun) as (a & c & -> & Ha). cbn [snd] in Ha.
    rewrite (Put_allocated _ _ _ _ Ha) in Hrun. by injection Hrun as <- <-.
  - destruct (Remove_Done_inv _ _ _ _ Hrun) as [->|[c Hc]]; cbn [snd] in *.
    + rewrite Remove_nil in Hrun. by injection Hrun as <- <-.
    + rewrite (Remove_allocated _ _ _ _ Hc) in Hrun. by injection Hrun as <- <-.
Qed.

Lemma steps_config ls : forall s s',
  Sound s -> steps s ls s' ->
  ConnPool.maxSize s'.1 = ConnPool.maxSize s.1
  /\ ConnPool.idleTimeout s'.1 = ConnPool.idleTimeout s.1.
Proof.
  induction ls as [|l ls IH]; intros s s' HS Hsteps.
  - by inversion Hsteps; subst.
  - inversion Hsteps as [|? ? s1 ? ? Hstep Hrest]; subst.
    destruct (step_config s l s1 HS Hstep) as [<- <-].
    apply IH; [|done]. by apply (step_Sound s l).
Qed.

(** No slot is lost without idle timeout.  From a new pool with
    [idleTimeout <= 0], when every [Put] and [Remove] gives back a
    connection that is out, the live count is exactly the number of idle
    connections plus the number of connections out; and no more than
    [maxSize] connections are out at any time. *)
Theorem live_count_is_idle_plus_handed_out
    dial close maxSize rt wt it (w0 : world E) ls out p w :
  steps (ConnPool.newConnPool dial close maxSize rt wt it, w0) ls (p, w) ->
  it <= 0 ->
  checked_out [] ls = Some out ->
  Z.of_nat (length ls) <= GoInt.max_int ->
  ConnPool.Len p + Z.of_nat (length out) = ConnPool.size p
  /\ (0 <= maxSize <= GoInt.max_int -> Z.of_nat (length out) <= maxSize).
Proof.
  intros Hsteps Hit Hout Hn.
  destruct (steps_Exact ls (ConnPool.newConnPool dial close maxSize rt wt it, w0)
              (p, w) [] out 0 Hit Hsteps) as (_ & Hlen & _); [|done|lia|].
  { split; [apply Sound_fresh|]. unfold ConnPool.Len, GoList.Len. cbn. lia. }
  cbn [fst] in Hlen. split; [done|]. intros Hmax.
  destruct (steps_bound ls (ConnPool.newConnPool dial close maxSize rt wt it, w0)
              (p, w) 0 Hit (proj2 Hmax) Hsteps) as (_ & _ & Hhi).
  - split; [apply Sound_fresh|]. cbn. lia.
  - lia.
  - destruct (steps_config ls _ _ (Sound_fresh dial close maxSize rt wt it w0) Hsteps)
      as [Hsame _].
    cbn [fst ConnPool.newConnPool ConnPool.maxSize] in *.
    unfold ConnPool.Len, GoList.Len in *. lia.
Qed.

End AccountingFacts.

Section SafetyFacts.
Context {E : Type}.
Implicit Types (p : ConnPool.connPool E) (w : world E) (c : Conn.conn E).
Implicit Types (cs : list (Conn.conn E)).

Lemma live_objects w (cns : list (option ptr)) :
  Forall (fun cn => is_Some (points_to w cn)) cns ->
  exists cs, Forall2 (fun cn c => points_to w cn = Some c) cns cs.
Proof.
  induction 1 as [|cn cns [c Hc] _ [cs IH]]; [by exists []|].
  exists (c :: cs). by constructor.
Qed.

Lemma close_in_order_no_signal p cs : forall x,
  Forall (fun ev => is_signal ev = false) (close_in_order p cs x).1.1.
Proof.
  assert (Hev : forall c r, is_signal (close_event p c r) = false).
  { intros c r. unfold close_event. by destruct (ConnPool.close p). }
  induction cs as [|c cs IH]; intros x; cbn; [constructor|].
  destruct (closer p c x) as [[er|] x'] eqn:Hr; cbn.
  - by repeat constructor.
  - specialize (IH x'). destruct (close_in_order p cs x') as [[evs err] x''].
    cbn in *. by constructor.
Qed.

(** [Close] on a sound pool returns: it never panics.  It signals nobody,
    so a [Get] that waits is not woken by it.  Once it has returned nil the
    pool is empty with a live count of 0 whatever was handed out, and a
    further [Close] returns nil again, closes nothing and changes
    nothing. *)
Theorem Close_signals_nobody_and_is_idempotent p w :
  Sound (p, w) ->
  exists err p' x evs,
    ConnPool.Close (p, w) = Done (err, (p', with_ext x evs w))
    /\ Forall (fun ev => is_signal ev = false) evs
    /\ (err = None ->
        ConnPool.Len p' = 0 /\ ConnPool.size p' = 0
        /\ forall w', ConnPool.Close (p', w') = Done (None, (p', w'))).
Proof.
  intros [Hwf Hall]. cbn [fst snd] in *.
  destruct (live_objects w _ Hall) as [cs Hcs].
  eexists _, _, _, _. split; [apply (Close_spec p w cs Hwf Hcs)|].
  split; [apply close_in_order_no_signal|].
  intros ->. split_and!; [done|done|]. intros w'.
  unfold ConnPool.Close, bind, self, update, ret. cbn.
  by destruct w'.
Qed.


(** No call changes [maxSize] or [idleTimeout]; and from a new pool with
    [idleTimeout <= 0] the live count never exceeds the [maxSize] the pool
    was made with, whatever the callers pass to [Put] and [Remove]. *)
Theorem live_count_never_exceeds_maxSize
    dial close maxSize rt wt it (w0 : world E) ls p w :
  steps (ConnPool.newConnPool dial close maxSize rt wt it, w0) ls (p, w) ->
  ConnPool.maxSize p = maxSize
  /\ ConnPool.idleTimeout p = it
  /\ (it <= 0 -> 0 <= maxSize <= GoInt.max_int ->
      Z.of_nat (length ls) <= GoInt.max_int ->
      ConnPool.size p <= maxSize).
Proof.
  intros Hsteps.
  destruct (steps_config ls _ _ (Sound_fresh dial close maxSize rt wt it w0) Hsteps)
    as [Hmax Hit]. cbn in Hmax, Hit. split_and!; [done|done|].
  intros Hoff Hrange Hn.
  destruct (steps_bound ls (ConnPool.newConnPool dial close maxSize rt wt it, w0)
              (p, w) 0 Hoff (proj2 Hrange) Hsteps) as (_ & _ & Hhi).
  - split; [apply Sound_fresh|]. cbn. lia.
  - lia.
  - cbn [fst] in Hhi. lia.
Qed.

End SafetyFacts.

(** * Further properties of the pinned connection *)

Section MorePinnedFacts.
Context {E P : Type} `{!Pool.pool E P}.
Implicit Types (sp : SingleConnPool.singleConnPool P) (w : world E).

Lemma Get_nothing_held sp w c (isNew : bool) (q : P) w' :
  SingleConnPool.cn sp = None ->
  Pool.Get (SingleConnPool.pool sp, w) = Done ((c, isNew, None), (q, w')) ->
  SingleConnPool.Get (sp, w)
  = Done ((c, isNew, None),
          (SingleConnPool.newSingleConnPool q c (SingleConnPool.reusable sp), w')).
Proof.
  intros Hcn Hget.
  unfold SingleConnPool.Get, bind at 1, self. cbn [fst snd]. rewrite Hcn.
  unfold bind at 1, SingleConnPool.in_pool. cbn [fst snd]. by rewrite Hget.
Qed.

Lemma Close_held sp w (a : ptr) :
  SingleConnPool.cn sp = Some a ->
  SingleConnPool.Close (sp, w)
  = match (if SingleConnPool.reusable sp
           then Pool.Put (Some a) else Pool.Remove (Some a))
          (SingleConnPool.pool sp, w) with
    | Done (err, (q, w')) =>
        Done (err, (SingleConnPool.newSingleConnPool q None
                      (SingleConnPool.reusable sp), w'))
    | Panic msg => Panic msg
    | Blocked => Blocked
    | OutOfFuel => OutOfFuel
    end.
Proof.
  intros Hcn. unfold SingleConnPool.Close, bind at 1, self. cbn [fst snd].
  rewrite Hcn. unfold bind at 1, SingleConnPool.in_pool. cbn [fst snd].
  destruct (SingleConnPool.reusable sp) eqn:Hr.
  - destruct (Pool.Put _ _) as [[r [q w1]]| | |]; [|done..].
    unfold bind, update, ret, SingleConnPool.set_cn, SingleConnPool.set_pool,
      SingleConnPool.newSingleConnPool. cbn. by rewrite Hr.
  - destruct (Pool.Remove _ _) as [[r [q w1]]| | |]; [|done..].
    unfold bind, update, ret, SingleConnPool.set_cn, SingleConnPool.set_pool,
      SingleConnPool.newSingleConnPool. cbn. by rewrite Hr.
Qed.

(** With nothing held, [Get] asks the pool under it once and keeps what it
    got: it answers the connection and the flag of the pool, and from then
    on every [Get] answers this connection, not new, in whatever world and
    without asking the pool again. *)
Theorem Get_pins_the_connection_of_the_pool sp w (a : ptr) (isNew : bool) (q : P) w' :
  SingleConnPool.cn sp = None ->
  Pool.Get (SingleConnPool.pool sp, w) = Done ((Some a, isNew, None), (q, w')) ->
  SingleConnPool.Get (sp, w)
  = Done ((Some a, isNew, None),
          (SingleConnPool.newSingleConnPool q (Some a) (SingleConnPool.reusable sp), w'))
  /\ forall w'',
      SingleConnPool.Get
        (SingleConnPool.newSingleConnPool q (Some a) (SingleConnPool.reusable sp), w'')
      = Done ((Some a, false, None),
              (SingleConnPool.newSingleConnPool q (Some a) (SingleConnPool.reusable sp),
               w'')).
Proof.
  intros Hcn Hget. split; [|done]. by apply Get_nothing_held.
Qed.

(** When the pool under it reports an error, [Get] returns that error with
    no connection and "not new", whatever came with the error, and goes on
    holding nothing; when the pool makes the caller wait, so does [Get]. *)
Theorem Get_pins_nothing_on_error sp w :
  SingleConnPool.cn sp = None ->
  (forall c isNew (er : error) q w',
      Pool.Get (SingleConnPool.pool sp, w) = Done ((c, isNew, Some er), (q, w')) ->
      exists sp',
        SingleConnPool.Get (sp, w) = Done ((None, false, Some er), (sp', w'))
        /\ SingleConnPool.cn sp' = None
        /\ SingleConnPool.pool sp' = q
        /\ SingleConnPool.Len sp' = 0)
  /\ (Pool.Get (SingleConnPool.pool sp, w) = Blocked ->
      SingleConnPool.Get (sp, w) = Blocked).
Proof.
  intros Hcn. split.
  - intros c isNew er q w' Hget. eexists.
    unfold SingleConnPool.Get, bind at 1, self. cbn [fst snd]. rewrite Hcn.
    unfold bind at 1, SingleConnPool.in_pool. cbn [fst snd]. rewrite Hget.
    split; [reflexivity|]. unfold SingleConnPool.Len. cbn. by rewrite Hcn.
  - intros Hget.
    unfold SingleConnPool.Get, bind at 1, self. cbn [fst snd]. rewrite Hcn.
    unfold bind at 1, SingleConnPool.in_pool. cbn [fst snd]. by rewrite Hget.
Qed.

(** A [Close] that returned, with an error of the pool or without, left
    the adapter empty: [Len()] is 0, and closing again returns nil and
    touches neither the adapter nor the pool under it. *)
Theorem Close_empties_the_adapter sp w err sp' w' :
  SingleConnPool.Close (sp, w) = Done (err, (sp', w')) ->
  SingleConnPool.cn sp' = None
  /\ SingleConnPool.Len sp' = 0
  /\ forall w'', SingleConnPool.Close (sp', w'') = Done (None, (sp', w'')).
Proof.
  intros Hclose.
  assert (Hcn : SingleConnPool.cn sp' = None).
  { revert Hclose. unfold SingleConnPool.Close, bind at 1, self. cbn [fst snd].
    destruct (SingleConnPool.cn sp) as [a|].
    - unfold bind at 1, SingleConnPool.in_pool.
      destruct (SingleConnPool.reusable sp); cbn [fst snd].
      + destruct (Pool.Put _ _) as [[r [q w1]]| | |]; [|done..].
        unfold bind, update, ret. cbn. by intros [= _ <- _].
      + destruct (Pool.Remove _ _) as [[r [q w1]]| | |]; [|done..].
        unfold bind, update, ret. cbn. by intros [= _ <- _].
    - unfold bind, update, ret. cbn. by intros [= _ <- _]. }
  split_and!; [done|by unfold SingleConnPool.Len; rewrite Hcn|].
  intros w''. unfold SingleConnPool.Close, bind, self, update, ret. cbn [fst snd].
  rewrite Hcn. destruct sp'. cbn in *. by subst.
Qed.

(** [Remove] of the held connection forgets it without telling the pool
    under it: the [Close] that follows returns nil and calls neither [Put]
    nor [Remove] of that pool, whose state stays as it was. *)
Theorem Remove_then_Close_leaves_the_pool_alone sp w :
  (SingleConnPool.Remove (SingleConnPool.cn sp) ;;; SingleConnPool.Close) (sp, w)
  = Done (None, (SingleConnPool.set_cn None sp, w)).
Proof.
  unfold bind at 1, SingleConnPool.Remove, bind at 1, self. cbn [fst snd].
  destruct (decide (SingleConnPool.cn sp = SingleConnPool.cn sp)); [|done].
  reflexivity.
Qed.

End MorePinnedFacts.

Section MorePinnedOverConnPool.
Context {E : Type}.
Implicit Types (sp : SingleConnPool.singleConnPool (ConnPool.connPool E)).
Implicit Types (w : world E) (c : Conn.conn E).

(** A pinned session over a [connPool] that finds an idle connection: [Get]
    takes the front [A] of the idle list (as the sweep left it) and
    [Close] gives it back.  When [reusable], [A] is in front of the idle
    list again, stamped with the time of the [Close], and the live count
    is as before; when not, [A] is closed, the rest of the idle list stays
    and the live count is decremented. *)
Theorem pinned_session_borrows_and_returns sp w e rest (a : ptr) c :
  SingleConnPool.cn sp = None ->
  Sound (SingleConnPool.pool sp, w) ->
  after_sweep (SingleConnPool.pool sp) w = e :: rest ->
  GoList.Value e = Some a ->
  heap w !! a = Some c ->
  exists err q w',
    (SingleConnPool.Get ;;; SingleConnPool.Close) (sp, w)
    = Done (err, (SingleConnPool.newSingleConnPool q None (SingleConnPool.reusable sp), w'))
    /\ (SingleConnPool.reusable sp = true ->
        err = None
        /\ GoList.values (ConnPool.conns q) = GoList.Value <$> (e :: rest)
        /\ ConnPool.size q = ConnPool.size (SingleConnPool.pool sp)
        /\ idle_time w' (Some a) = Some (Sub (now w) (now w)))
    /\ (SingleConnPool.reusable sp = false ->
        err = (closer (SingleConnPool.pool sp) c (ext w)).1
        /\ GoList.elems (ConnPool.conns q) = rest
        /\ ConnPool.size q = GoInt.decr (ConnPool.size (SingleConnPool.pool sp))
        /\ trace w' = trace w ++ [close_event (SingleConnPool.pool sp) c err; EvSignal]).
Proof.
  destruct sp as [q0 held reusable]. cbn [SingleConnPool.cn SingleConnPool.pool
    SingleConnPool.reusable]. intros -> [Hwf Hall] Hsw Hval Ha. cbn [fst snd] in *.
  assert (Hget : ConnPool.Get (q0, w)
                 = Done ((Some a, false, None), (with_elems rest q0, w))).
  { rewrite Get_swept; [|done|done|].
    - by rewrite Hsw, Hval.
    - left. intros Hes. unfold after_sweep in Hsw. rewrite Hes in Hsw.
      by destruct (0 <? ConnPool.idleTimeout q0). }
  unfold bind at 1.
  rewrite (@Get_nothing_held E (ConnPool.connPool E) connPool_pool
             {| SingleConnPool.pool := q0; SingleConnPool.cn := None;
                SingleConnPool.reusable := reusable |}
             w (Some a) false (with_elems rest q0) w eq_refl Hget).
  cbv beta iota. cbn [SingleConnPool.reusable].
  rewrite (@Close_held E (ConnPool.connPool E) connPool_pool
             (SingleConnPool.newSingleConnPool (with_elems rest q0) (Some a) reusable)
             w a eq_refl).
  cbn [SingleConnPool.newSingleConnPool SingleConnPool.pool SingleConnPool.reusable
    Pool.Put Pool.Remove connPool_pool].
  destruct reusable.
  - rewrite (Put_allocated _ w a c Ha).
    eexists _, _, _. split; [reflexivity|]. split; [intros _|done].
    split_and!; [done| |done|].
    + unfold GoList.values. cbn. by rewrite Hval.
    + unfold idle_time. cbn [points_to stamped heap now].
      rewrite list_lookup_insert_eq by (by apply lookup_lt_Some in Ha). done.
  - rewrite (Remove_allocated _ w (Some a) c Ha).
    eexists _, _, _. split; [reflexivity|]. split; [done|intros _].
    split_and!; try done.
Qed.

End MorePinnedOverConnPool.

(** * The further properties at work *)

(** The state a run from a new pool ends in is sound. *)
Lemma Sound_after {E : Type} dial close maxSize rt wt it (w0 : world E) ks ls s :
  run ks (ConnPool.newConnPool dial close maxSize rt wt it, w0) = Done (ls, s) ->
  Sound s.
Proof.
  intros Hrun. apply run_steps in Hrun.
  by apply (steps_Sound ls _ _ (Sound_fresh dial close maxSize rt wt it w0)).
Qed.

Lemma Get_waits_iff_exhausted_witness :
  ConnPool.Get (MoreScenario.pool_1_full, Scenario.world_0) = Blocked.
Proof.
  apply (Get_waits_iff_exhausted MoreScenario.pool_1_full Scenario.world_0).
  - split; [split; cbn; constructor|constructor].
  - split; [reflexivity|]. vm_compute. discriminate.
Defined.

Lemma Get_returns_dial_error_witness :
  exists p' w',
    ConnPool.Get (MoreScenario.pool_refused, Scenario.world_0)
    = Done ((None, false, Some "connection refused"%string), (p', w'))
    /\ ConnPool.size p' = 0
    /\ heap w' = [].
Proof.
  destruct (Get_returns_dial_error MoreScenario.pool_refused Scenario.world_0
              "connection refused"%string 1%nat)
    as (p' & w' & Hget & Hsize & _ & Hheap & _).
  - split; [split; cbn; constructor|constructor].
  - right. vm_compute. reflexivity.
  - reflexivity.
  - reflexivity.
  - exists p', w'. split_and!; [exact Hget|exact Hsize|exact Hheap].
Defined.

Lemma Get_wraps_dialled_transport_witness :
  exists p' w',
    ConnPool.Get (Scenario.pool_1, Scenario.world_0)
    = Done ((Some 0%nat, true, None), (p', w'))
    /\ ConnPool.size p' = 1.
Proof.
  destruct (Get_wraps_dialled_transport Scenario.pool_1 Scenario.world_0
              (Scenario.transport 0) 1%nat)
    as (cn & p' & w' & Hget & _ & _ & _ & Hsize & _).
  - split; [split; cbn; constructor|constructor].
  - right. vm_compute. reflexivity.
  - reflexivity.
  - reflexivity.
  - assert (cn = Some 0%nat) as ->.
    { revert Hget. vm_compute. congruence. }
    exists p', w'. split; [exact Hget|]. rewrite Hsize. reflexivity.
Defined.

Lemma sweep_only_forgets_witness :
  exists p',
    ConnPool.sweep
      ((Scenario.after Scenario.two_idle (Scenario.pool_2, Scenario.world_0)).1,
       env 100 0%nat
         (Scenario.after Scenario.two_idle (Scenario.pool_2, Scenario.world_0)).2)
    = Done (tt, (p', env 100 0%nat
                   (Scenario.after Scenario.two_idle
                      (Scenario.pool_2, Scenario.world_0)).2))
    /\ ConnPool.size p' = 2.
Proof.
  destruct (sweep_only_forgets
              (Scenario.after Scenario.two_idle (Scenario.pool_2, Scenario.world_0)).1
              (env 100 0%nat
                 (Scenario.after Scenario.two_idle
                    (Scenario.pool_2, Scenario.world_0)).2))
    as (p' & Hsweep & Hsize & _).
  - change (Sound (Scenario.after Scenario.two_idle (Scenario.pool_2, Scenario.world_0))).
    eapply (Sound_after Scenario.dial_ok None 2 0 0 10 Scenario.world_0 Scenario.two_idle).
    vm_compute. reflexivity.
  - exists p'. split; [exact Hsweep|]. rewrite Hsize. reflexivity.
Defined.

Lemma Get_dials_up_to_maxSize_then_waits_witness :
  exists rs p w,
    Gets 2 (Scenario.pool_0, Scenario.world_0) = Done (rs, (p, w))
    /\ rs = [(Some 0%nat, true, None); (Some 1%nat, true, None)]
    /\ ConnPool.Get (p, env 7 2%nat w) = Blocked.
Proof.
  destruct (Get_dials_up_to_maxSize_then_waits
              Scenario.dial_ok None 2 0 0 0 Scenario.world_0)
    as (rs & p & w & Hrun & Hrs & _ & _ & Hwait).
  - intros x. by eexists _, _.
  - vm_compute. discriminate.
  - exists rs, p, w. split_and!; [exact Hrun|exact Hrs|apply Hwait].
Defined.

Lemma Put_then_Get_is_a_round_trip_witness :
  exists p1 w1 p2,
    ConnPool.Put (Some 1%nat)
      ((Scenario.after MoreScenario.one_idle (Scenario.pool_2, Scenario.world_0)).1,
       (Scenario.after MoreScenario.one_idle (Scenario.pool_2, Scenario.world_0)).2)
    = Done (None, (p1, w1))
    /\ ConnPool.Get (p1, env 5 2%nat w1)
       = Done ((Some 1%nat, false, None), (p2, env 5 2%nat w1))
    /\ ConnPool.size p2 = 2.
Proof.
  destruct (Put_then_Get_is_a_round_trip
              (Scenario.after MoreScenario.one_idle (Scenario.pool_2, Scenario.world_0)).1
              (Scenario.after MoreScenario.one_idle (Scenario.pool_2, Scenario.world_0)).2
              1%nat
              {| Conn.Cn := Scenario.transport 1; Conn.UsedAt := 0;
                 Conn.readTimeout := 0; Conn.writeTimeout := 0 |}
              5 2%nat)
    as (p1 & w1 & p2 & HPut & HGet & Hsize & _).
  - change (Sound (Scenario.after MoreScenario.one_idle
                     (Scenario.pool_2, Scenario.world_0))).
    eapply (Sound_after Scenario.dial_ok None 2 0 0 10 Scenario.world_0
              MoreScenario.one_idle).
    vm_compute. reflexivity.
  - vm_compute. reflexivity.
  - intros _. vm_compute. discriminate.
  - exists p1, w1, p2. split_and!; [exact HPut|exact HGet|].
    rewrite Hsize. reflexivity.
Defined.

Lemma live_count_is_idle_plus_handed_out_witness :
  exists ls out p w,
    run Scenario.reuse (Scenario.pool_0, Scenario.world_0) = Done (ls, (p, w))
    /\ checked_out [] ls = Some out
    /\ ConnPool.Len p + Z.of_nat (length out) = ConnPool.size p
    /\ Z.of_nat (length out) <= 2.
Proof.
  eexists _, _, _, _. split; [vm_compute; reflexivity|].
  split; [vm_compute; reflexivity|].
  destruct (live_count_is_idle_plus_handed_out
              Scenario.dial_ok None 2 0 0 0 Scenario.world_0
              [LGet (Some 0%nat, true, None); LGet (Some 1%nat, true, None);
               LPut (Some 0%nat); LGet (Some 0%nat, false, None);
               LRemove (Some 1%nat)]
              [Some 0%nat]
              (Scenario.after Scenario.reuse (Scenario.pool_0, Scenario.world_0)).1
              (Scenario.after Scenario.reuse (Scenario.pool_0, Scenario.world_0)).2)
    as [Hexact Hmax].
  - apply (run_steps Scenario.reuse). vm_compute. reflexivity.
  - lia.
  - vm_compute. reflexivity.
  - vm_compute. discriminate.
  - split; [exact Hexact|]. apply Hmax. vm_compute. split; discriminate.
Defined.

Lemma Close_signals_nobody_and_is_idempotent_witness :
  exists p' w',
    ConnPool.Close
      ((Scenario.after Scenario.two_idle (Scenario.pool_2, Scenario.world_0)).1,
       (Scenario.after Scenario.two_idle (Scenario.pool_2, Scenario.world_0)).2)
    = Done (None, (p', w'))
    /\ ConnPool.Close (p', w') = Done (None, (p', w')).
Proof.
  destruct (Close_signals_nobody_and_is_idempotent
              (Scenario.after Scenario.two_idle (Scenario.pool_2, Scenario.world_0)).1
              (Scenario.after Scenario.two_idle (Scenario.pool_2, Scenario.world_0)).2)
    as (err & p' & x & evs & HClose & _ & Hagain).
  - change (Sound (Scenario.after Scenario.two_idle (Scenario.pool_2, Scenario.world_0))).
    eapply (Sound_after Scenario.dial_ok None 2 0 0 10 Scenario.world_0 Scenario.two_idle).
    vm_compute. reflexivity.
  - assert (err = None) as ->.
    { revert HClose. vm_compute. congruence. }
    eexists _, _. split; [exact HClose|]. by apply Hagain.
Defined.


Lemma live_count_never_exceeds_maxSize_witness :
  ConnPool.size (Scenario.after Scenario.double_put (Scenario.pool_0, Scenario.world_0)).1
  <= 2.
Proof.
  destruct (live_count_never_exceeds_maxSize Scenario.dial_ok None 2 0 0 0 Scenario.world_0
              [LGet (Some 0%nat, true, None); LPut (Some 0%nat); LPut (Some 0%nat)]
              (Scenario.after Scenario.double_put (Scenario.pool_0, Scenario.world_0)).1
              (Scenario.after Scenario.double_put (Scenario.pool_0, Scenario.world_0)).2)
    as (_ & _ & Hbound).
  - apply (run_steps Scenario.double_put). vm_compute. reflexivity.
  - apply Hbound; [lia|vm_compute; split; discriminate|vm_compute; discriminate].
Defined.

Lemma Get_pins_the_connection_of_the_pool_witness :
  exists sp' w',
    SingleConnPool.Get
      (SingleConnPool.newSingleConnPool Scenario.pool_1 None true, Scenario.world_0)
    = Done ((Some 0%nat, true, None), (sp', w'))
    /\ SingleConnPool.Get (sp', w') = Done ((Some 0%nat, false, None), (sp', w')).
Proof.
  destruct (Get_pins_the_connection_of_the_pool
              (SingleConnPool.newSingleConnPool Scenario.pool_1 None true)
              Scenario.world_0 0%nat true
              (ConnPool.set_size 1 (with_elems [] Scenario.pool_1))
              (dialled Scenario.pool_1 (inl (Scenario.transport 0)) 1%nat Scenario.world_0))
    as [Hfirst Hnext].
  - reflexivity.
  - vm_compute. reflexivity.
  - eexists _, _. split; [exact Hfirst|apply Hnext].
Defined.

Lemma Get_pins_nothing_on_error_witness :
  exists sp' w',
    SingleConnPool.Get
      (SingleConnPool.newSingleConnPool MoreScenario.pool_refused None true,
       Scenario.world_0)
    = Done ((None, false, Some "connection refused"%string), (sp', w'))
    /\ SingleConnPool.Len sp' = 0.
Proof.
  destruct (Get_pins_nothing_on_error
              (SingleConnPool.newSingleConnPool MoreScenario.pool_refused None true)
              Scenario.world_0 eq_refl) as [Herr _].
  destruct (Herr None false "connection refused"%string
              (with_elems [] MoreScenario.pool_refused)
              (dialled MoreScenario.pool_refused (inr "connection refused"%string)
                 1%nat Scenario.world_0))
    as (sp' & Hget & _ & _ & Hlen).
  - vm_compute. reflexivity.
  - exists sp', (dialled MoreScenario.pool_refused (inr "connection refused"%string)
                   1%nat Scenario.world_0).
    split; [exact Hget|exact Hlen].
Defined.

Lemma Close_empties_the_adapter_witness :
  exists sp' w',
    SingleConnPool.Close
      (SingleConnPool.newSingleConnPool Scenario.pool_0 (Some 0%nat) true,
       Scenario.world_1)
    = Done (None, (sp', w'))
    /\ SingleConnPool.Len sp' = 0
    /\ SingleConnPool.Close (sp', w') = Done (None, (sp', w')).
Proof.
  eexists _, _. split; [vm_compute; reflexivity|].
  match goal with
  | |- SingleConnPool.Len ?sp' = 0 /\ SingleConnPool.Close (?sp', ?w') = _ =>
      destruct (Close_empties_the_adapter
                  (SingleConnPool.newSingleConnPool Scenario.pool_0 (Some 0%nat) true)
                  Scenario.world_1 None sp' w') as (_ & Hlen & Hagain)
  end.
  - vm_compute. reflexivity.
  - split; [exact Hlen|apply Hagain].
Defined.

Lemma pinned_session_borrows_and_returns_witness :
  exists q w',
    (SingleConnPool.Get ;;; SingleConnPool.Close)
      (SingleConnPool.newSingleConnPool
         (Scenario.after MoreScenario.one_idle (Scenario.pool_2, Scenario.world_0)).1
         None true,
       (Scenario.after MoreScenario.one_idle (Scenario.pool_2, Scenario.world_0)).2)
    = Done (None, (SingleConnPool.newSingleConnPool q None true, w'))
    /\ GoList.values (ConnPool.conns q) = [Some 0%nat]
    /\ ConnPool.size q = 2.
Proof.
  destruct (pinned_session_borrows_and_returns
              (SingleConnPool.newSingleConnPool
                 (Scenario.after MoreScenario.one_idle
                    (Scenario.pool_2, Scenario.world_0)).1
                 None true)
              (Scenario.after MoreScenario.one_idle (Scenario.pool_2, Scenario.world_0)).2
              {| GoList.id := 0; GoList.Value := Some 0%nat |} [] 0%nat
              {| Conn.Cn := Scenario.transport 0; Conn.UsedAt := 0;
                 Conn.readTimeout := 0; Conn.writeTimeout := 0 |})
    as (err & q & w' & Hrun & Hreuse & _).
  - reflexivity.
  - change (Sound (Scenario.after MoreScenario.one_idle
                     (Scenario.pool_2, Scenario.world_0))).
    eapply (Sound_after Scenario.dial_ok None 2 0 0 10 Scenario.world_0
              MoreScenario.one_idle).
    vm_compute. reflexivity.
  - vm_compute. reflexivity.
  - reflexivity.
  - vm_compute. reflexivity.
  - destruct (Hreuse eq_refl) as (-> & Hvals & Hsize & _).
    exists q, w'. split_and!; [exact Hrun|exact Hvals|].
    rewrite Hsize. reflexivity.
Defined.
